(** * A shallow embedding of [app.py]: Spotify lookup, streamed commentary
      and cooperative cancellation.

    The module-level state of [app.py] (the [stop_inference] flag and the
    Prometheus counters) is threaded explicitly as a [World].  The calls that
    leave the process (Spotify client, search, recommendations, the two
    text-generation backends) are answered by an [Env] and recorded, in order,
    in the [calls] field of the world.  Exceptions raised by the program's own
    expressions ([NameError] for the undefined [pipe], [IndexError] for [[0]]
    and [[-1]] on an empty list) are results of the error monad [M].
    Failures inside the providers are outside this model: a provider answers
    every request with data of the shape its client library documents.  The
    [RECOMMENDATION_DURATION] summary measures wall-clock time and is left
    out.

    [respond] is a generator.  Its body is cut at the points where the rest of
    the process can make a difference: a step runs from one such point to the
    next, and the Cancel handler may run between any two steps. *)

From Stdlib Require Import String Ascii List Bool Lia.
Import ListNotations.
Local Open Scope string_scope.
Local Open Scope list_scope.

Local Infix "+++" := String.append (at level 60, right associativity).

(** ** Data *)

(** The line feed of the Python literals ["\n"]. *)
Definition nl : string := String (ascii_of_nat 10) EmptyString.

(** Python truth value of a text field that may be [None]. *)
Definition truthy (o : option string) : bool :=
  match o with
  | None => false
  | Some EmptyString => false
  | Some (String _ _) => true
  end.

(** The string held by an argument that the guard has found truthy. *)
Definition str (o : option string) : string :=
  match o with
  | Some s => s
  | None => "None"
  end.

Record Artist := { artist_name : string }.

(** A Spotify track object: [track['uri']], [track['name']],
    [track['artists']]. *)
Record Track := {
  uri : string;
  name : string;
  artists : list Artist }.

Inductive Role := system | user | assistant.

Record Message := { role : Role; content : string }.

(** A streamed chunk of the Inference API:
    [message_chunk.choices[0].delta.content] is an optional string. *)
Record Delta := { delta_content : option string }.
Record Choice := { delta : Delta }.
Record ApiChunk := { choices : list Choice }.

(** An output of the local pipeline: [output['generated_text']] is a list of
    messages. *)
Record LocalOutput := { generated_text : list Message }.

(** A chat turn of the history: either side may be [None]. *)
Definition ChatTurn : Type := option string * option string.

(** What the generator yields: [history + [(label, response)]]. *)
Definition Snapshot : Type := list ChatTurn.

(** Calls that leave the process. *)
Inductive Call :=
| SpotifyClient (client_id client_secret : string)
| Search (q : string)
| Recommendations (seed_tracks : list string)
| ChatCompletion (messages : list Message) (max_tokens : nat)
| Pipe (messages : list Message) (max_new_tokens : nat).

(** The answers of the external services.  [pipe] is [None] when the name is
    not bound (the import and the pipeline construction are commented out). *)
Record Env := {
  sp_search : string -> string -> string -> list Track;
  sp_recommendations : string -> string -> list string -> list Track;
  chat_completion : list Message -> nat -> list ApiChunk;
  pipe : option (list Message -> nat -> list LocalOutput) }.

(** ** Module state *)

Record Metrics := {
  RECOMMENDATIONS_PROCESSED : nat;
  SUCCESSFUL_RECOMMENDATIONS : nat;
  FAILED_RECOMMENDATIONS : nat;
  USER_INTERACTIONS : nat;
  CANCELLED_RECOMMENDATIONS : nat }.

Record World := {
  stop_inference : bool;
  metrics : Metrics;
  calls : list Call }.

(** The state of a freshly started process. *)
Definition initial_world : World :=
  {| stop_inference := false;
     metrics := {| RECOMMENDATIONS_PROCESSED := 0;
                   SUCCESSFUL_RECOMMENDATIONS := 0;
                   FAILED_RECOMMENDATIONS := 0;
                   USER_INTERACTIONS := 0;
                   CANCELLED_RECOMMENDATIONS := 0 |};
     calls := [] |}.

Definition set_stop_inference (b : bool) (w : World) : World :=
  {| stop_inference := b; metrics := metrics w; calls := calls w |}.

Definition set_metrics (m : Metrics) (w : World) : World :=
  {| stop_inference := stop_inference w; metrics := m; calls := calls w |}.

Definition record_call (c : Call) (w : World) : World :=
  {| stop_inference := stop_inference w;
     metrics := metrics w;
     calls := calls w ++ [c] |}.

Inductive Counter :=
| Processed | Successful | Failed | Interactions | Cancelled.

(** [Counter.inc()] on one of the five module-level counters. *)
Definition inc_metrics (c : Counter) (m : Metrics) : Metrics :=
  match c with
  | Processed =>
      {| RECOMMENDATIONS_PROCESSED := S (RECOMMENDATIONS_PROCESSED m);
         SUCCESSFUL_RECOMMENDATIONS := SUCCESSFUL_RECOMMENDATIONS m;
         FAILED_RECOMMENDATIONS := FAILED_RECOMMENDATIONS m;
         USER_INTERACTIONS := USER_INTERACTIONS m;
         CANCELLED_RECOMMENDATIONS := CANCELLED_RECOMMENDATIONS m |}
  | Successful =>
      {| RECOMMENDATIONS_PROCESSED := RECOMMENDATIONS_PROCESSED m;
         SUCCESSFUL_RECOMMENDATIONS := S (SUCCESSFUL_RECOMMENDATIONS m);
         FAILED_RECOMMENDATIONS := FAILED_RECOMMENDATIONS m;
         USER_INTERACTIONS := USER_INTERACTIONS m;
         CANCELLED_RECOMMENDATIONS := CANCELLED_RECOMMENDATIONS m |}
  | Failed =>
      {| RECOMMENDATIONS_PROCESSED := RECOMMENDATIONS_PROCESSED m;
         SUCCESSFUL_RECOMMENDATIONS := SUCCESSFUL_RECOMMENDATIONS m;
         FAILED_RECOMMENDATIONS := S (FAILED_RECOMMENDATIONS m);
         USER_INTERACTIONS := USER_INTERACTIONS m;
         CANCELLED_RECOMMENDATIONS := CANCELLED_RECOMMENDATIONS m |}
  | Interactions =>
      {| RECOMMENDATIONS_PROCESSED := RECOMMENDATIONS_PROCESSED m;
         SUCCESSFUL_RECOMMENDATIONS := SUCCESSFUL_RECOMMENDATIONS m;
         FAILED_RECOMMENDATIONS := FAILED_RECOMMENDATIONS m;
         USER_INTERACTIONS := S (USER_INTERACTIONS m);
         CANCELLED_RECOMMENDATIONS := CANCELLED_RECOMMENDATIONS m |}
  | Cancelled =>
      {| RECOMMENDATIONS_PROCESSED := RECOMMENDATIONS_PROCESSED m;
         SUCCESSFUL_RECOMMENDATIONS := SUCCESSFUL_RECOMMENDATIONS m;
         FAILED_RECOMMENDATIONS := FAILED_RECOMMENDATIONS m;
         USER_INTERACTIONS := USER_INTERACTIONS m;
         CANCELLED_RECOMMENDATIONS := S (CANCELLED_RECOMMENDATIONS m) |}
  end.

Definition inc_world (c : Counter) (w : World) : World :=
  set_metrics (inc_metrics c (metrics w)) w.

(** Readers of the counters of a world. *)
Definition processed (w : World) : nat := RECOMMENDATIONS_PROCESSED (metrics w).
Definition successful (w : World) : nat := SUCCESSFUL_RECOMMENDATIONS (metrics w).
Definition failed (w : World) : nat := FAILED_RECOMMENDATIONS (metrics w).
Definition interactions (w : World) : nat := USER_INTERACTIONS (metrics w).
Definition cancelled (w : World) : nat := CANCELLED_RECOMMENDATIONS (metrics w).

(** ** State and exceptions *)

Inductive Exn := NameError | IndexError.

Inductive Result (A : Type) :=
| Returned (a : A)
| Raised (e : Exn).
Arguments Returned {A} a.
Arguments Raised {A} e.

(** A computation reads and writes the world and returns or raises; what it
    wrote before raising stays written. *)
Definition M (A : Type) : Type := World -> World * Result A.

Definition ret {A} (a : A) : M A := fun w => (w, Returned a).

Definition bind {A B} (m : M A) (k : A -> M B) : M B :=
  fun w =>
    match m w with
    | (w', Returned a) => k a w'
    | (w', Raised e) => (w', Raised e)
    end.

Definition lift {A} (r : Result A) : M A := fun w => (w, r).

Declare Scope py_scope.
Delimit Scope py_scope with py.
Notation "x <- m ;; k" := (bind m (fun x => k))
  (at level 61, m at next level, right associativity) : py_scope.
Notation "m ;; k" := (bind m (fun _ => k))
  (at level 61, right associativity) : py_scope.
Local Open Scope py_scope.

Definition inc (c : Counter) : M unit := fun w => (inc_world c w, Returned tt).

(** A list comprehension whose element expression may raise: elements are
    evaluated left to right and the first exception ends it. *)
Fixpoint comprehension {A B} (f : A -> Result B) (l : list A) : Result (list B) :=
  match l with
  | [] => Returned []
  | x :: l' =>
      match f x with
      | Raised e => Raised e
      | Returned y =>
          match comprehension f l' with
          | Raised e => Raised e
          | Returned ys => Returned (y :: ys)
          end
      end
  end.

(** ** [spotify_rec] *)

(** [spotipy.Spotify(client_credentials_manager=SpotifyClientCredentials(...))]:
    building the client is recorded; it sends nothing by itself. *)
Definition Spotify (client_id client_secret : string) : M unit :=
  fun w => (record_call (SpotifyClient client_id client_secret) w, Returned tt).

(** [sp.search(q=..., type='track')['tracks']['items']] *)
Definition search (E : Env) (client_id client_secret q : string) : M (list Track) :=
  fun w => (record_call (Search q) w, Returned (sp_search E client_id client_secret q)).

(** [sp.recommendations(seed_tracks=...)['tracks']] *)
Definition recommendations (E : Env) (client_id client_secret : string)
    (seed_tracks : list string) : M (list Track) :=
  fun w => (record_call (Recommendations seed_tracks) w,
            Returned (sp_recommendations E client_id client_secret seed_tracks)).

(** [f"{track['name']} by {track['artists'][0]['name']}"] *)
Definition recommendation_entry (track : Track) : Result string :=
  match artists track with
  | [] => Raised IndexError
  | a :: _ => Returned (name track +++ " by " +++ artist_name a)
  end.

Definition MSG_CREDENTIALS : string := "Please provide Spotify API credentials.".
Definition MSG_NO_TRACKS : string :=
  "No tracks found for the given track name and artist.".
Definition MSG_NO_RECOMMENDATIONS : string := "No recommendations found.".

Definition spotify_rec (E : Env) (track_name artist : string)
    (client_id client_secret : option string) : M string :=
  if negb (truthy client_id) || negb (truthy client_secret) then
    inc Failed ;;
    ret MSG_CREDENTIALS
  else
    Spotify (str client_id) (str client_secret) ;;
    items <- search E (str client_id) (str client_secret)
               ("track:" +++ track_name +++ " artist:" +++ artist) ;;
    match items with
    | [] =>
        inc Failed ;;
        ret MSG_NO_TRACKS
    | first :: _ =>
        let track_uri := uri first in
        recs <- recommendations E (str client_id) (str client_secret) [track_uri] ;;
        match recs with
        | [] =>
            inc Failed ;;
            ret MSG_NO_RECOMMENDATIONS
        | _ :: _ =>
            recommendation_list <- lift (comprehension recommendation_entry recs) ;;
            inc Successful ;;
            inc Processed ;;
            ret (String.concat nl recommendation_list)
        end
    end.

(** ** [respond] *)

Record Args := {
  track_name : string;
  artist : string;
  history : option (list ChatTurn);
  system_message : string;
  max_tokens : nat;
  use_local_model : bool;
  client_id : option string;
  client_secret : option string }.

(** One iteration of [for val in history]. *)
Definition append_turn (messages : list Message) (val : ChatTurn) : list Message :=
  let messages :=
    if truthy (fst val)
    then messages ++ [{| role := user; content := str (fst val) |}]
    else messages in
  if truthy (snd val)
  then messages ++ [{| role := assistant; content := str (snd val) |}]
  else messages.

Definition user_message (track artist recs : string) : string :=
  "I like '" +++ track +++ "' by " +++ artist
  +++ ". Here are some Spotify recommendations:" +++ nl +++ recs +++ nl +++ nl
  +++ "Can you tell me more about these songs and suggest why I might enjoy them?".

(** Lines 110-118: the list starts with the system message, the loop appends
    to it, the synthesized user message is appended last. *)
Definition build_messages (system_message : string) (history : list ChatTurn)
    (track artist recs : string) : list Message :=
  let messages := [{| role := system; content := system_message |}] in
  let messages := fold_left append_turn history messages in
  messages ++ [{| role := user; content := user_message track artist recs |}].

(** Line 120: the initial value of [response]. *)
Definition response_header (track artist recs : string) : string :=
  "**Spotify Recommendations based on '" +++ track +++ "' by " +++ artist
  +++ ":**" +++ nl +++ recs +++ nl +++ nl.

Definition CANCEL_MARKER : string := nl +++ nl +++ "*Inference cancelled.*".

Definition NOT_CONFIGURED : string :=
  "*Error: Local model not configured. Please uncomment the torch/transformers imports and pipeline initialization in app.py, or uncheck 'Use Local Model'.*".

(** [history + [(f"{track_name} by {artist}", response)]] *)
Definition snapshot (history : list ChatTurn) (track artist response : string)
  : Snapshot :=
  history ++ [(Some (track +++ " by " +++ artist), Some response)].

(** [l[-1]] *)
Fixpoint last_item {A} (l : list A) : Result A :=
  match l with
  | [] => Raised IndexError
  | [x] => Returned x
  | _ :: l' => last_item l'
  end.

(** [l[0]] *)
Definition first_item {A} (l : list A) : Result A :=
  match l with
  | [] => Raised IndexError
  | x :: _ => Returned x
  end.

(** [output['generated_text'][-1]['content']] *)
Definition local_token (output : LocalOutput) : Result string :=
  match last_item (generated_text output) with
  | Returned m => Returned (content m)
  | Raised e => Raised e
  end.

(** [message_chunk.choices[0].delta.content] *)
Definition api_token (message_chunk : ApiChunk) : Result (option string) :=
  match first_item (choices message_chunk) with
  | Returned c => Returned (delta_content (delta c))
  | Raised e => Raised e
  end.

(** The generator object.  Its control points are the places where the body
    can be observed from outside: before it has run at all, at the head of
    either [for] loop (before the flag is read for the next chunk), suspended
    at a [yield] that is followed by [return], and finished. *)
Inductive Gen :=
| Created (a : Args)
| LocalLoop (track artist : string) (history : list ChatTurn) (response : string)
    (outputs : list LocalOutput)
| ApiLoop (track artist : string) (history : list ChatTurn) (response : string)
    (chunks : list ApiChunk)
| FinalYield
| Closed.

(** What a step of the body shows to its consumer. *)
Inductive Signal :=
| Yield (s : Snapshot)
| Running
| StopIteration
| Raise (e : Exn).

(** Lines 99-130 and 139-149: from the entry of the body to the head of the
    selected loop, or to the [yield] of the [except NameError] handler. *)
Definition respond_enter (E : Env) (a : Args) (w : World) : World * Signal * Gen :=
  let w := set_stop_inference false w in
  let w := inc_world Interactions w in
  let history := match history a with None => [] | Some h => h end in
  match spotify_rec E (track_name a) (artist a) (client_id a) (client_secret a) w with
  | (w, Raised e) => (w, Raise e, Closed)
  | (w, Returned recs) =>
      let messages :=
        build_messages (system_message a) history (track_name a) (artist a) recs in
      let response := response_header (track_name a) (artist a) recs in
      if use_local_model a then
        match pipe E with
        | Some p =>
            (record_call (Pipe messages (max_tokens a)) w, Running,
             LocalLoop (track_name a) (artist a) history response
               (p messages (max_tokens a)))
        | None =>
            let w := inc_world Failed w in
            let response := response +++ NOT_CONFIGURED in
            (w, Yield (snapshot history (track_name a) (artist a) response),
             FinalYield)
        end
      else
        (record_call (ChatCompletion messages (max_tokens a)) w, Running,
         ApiLoop (track_name a) (artist a) history response
           (chat_completion E messages (max_tokens a)))
  end.

(** Lines 131-138: the body of the local loop for one [output]. *)
Definition local_chunk (track artist : string) (history : list ChatTurn)
    (response : string) (output : LocalOutput) (rest : list LocalOutput)
    (w : World) : World * Signal * Gen :=
  if stop_inference w then
    let w := inc_world Cancelled w in
    let response := response +++ CANCEL_MARKER in
    (w, Yield (snapshot history track artist response), FinalYield)
  else
    match local_token output with
    | Raised e => (w, Raise e, Closed)
    | Returned token =>
        let response := response +++ token in
        (w, Yield (snapshot history track artist response),
         LocalLoop track artist history response rest)
    end.

(** Lines 152-160: the body of the API loop for one [message_chunk]. *)
Definition api_chunk (track artist : string) (history : list ChatTurn)
    (response : string) (message_chunk : ApiChunk) (rest : list ApiChunk)
    (w : World) : World * Signal * Gen :=
  if stop_inference w then
    let w := inc_world Cancelled w in
    let response := response +++ CANCEL_MARKER in
    (w, Yield (snapshot history track artist response), FinalYield)
  else
    match api_token message_chunk with
    | Raised e => (w, Raise e, Closed)
    | Returned token =>
        let response := if truthy token then response +++ str token else response in
        (w, Yield (snapshot history track artist response),
         ApiLoop track artist history response rest)
    end.

(** One step of the generator body, up to its next control point. *)
Definition respond_step (E : Env) (g : Gen) (w : World) : World * Signal * Gen :=
  match g with
  | Created a => respond_enter E a w
  | LocalLoop track artist history response [] => (w, StopIteration, Closed)
  | LocalLoop track artist history response (output :: rest) =>
      local_chunk track artist history response output rest w
  | ApiLoop track artist history response [] => (w, StopIteration, Closed)
  | ApiLoop track artist history response (message_chunk :: rest) =>
      api_chunk track artist history response message_chunk rest w
  | FinalYield => (w, StopIteration, Closed)
  | Closed => (w, StopIteration, Closed)
  end.

(** ** [cancel_inference] and the interleaving of the two handlers *)

Definition cancel_inference (w : World) : World := set_stop_inference true w.

(** What happens to a running call: its body takes a step, or the Cancel
    button fires in between. *)
Inductive Event := Resume | CancelClick.

Record Trace := {
  snapshots : list Snapshot;
  end_world : World;
  end_gen : Gen }.

Fixpoint run (E : Env) (events : list Event) (g : Gen) (w : World) : Trace :=
  match events with
  | [] => {| snapshots := []; end_world := w; end_gen := g |}
  | CancelClick :: events' => run E events' g (cancel_inference w)
  | Resume :: events' =>
      match respond_step E g w with
      | (w', signal, g') =>
          let t := run E events' g' w' in
          match signal with
          | Yield s =>
              {| snapshots := s :: snapshots t;
                 end_world := end_world t;
                 end_gen := end_gen t |}
          | _ => t
          end
      end
  end.

(** The response text shown by a snapshot: the second component of its last
    pair. *)
Definition snapshot_response (s : Snapshot) : string :=
  match last_item s with
  | Returned (_, Some r) => r
  | _ => ""
  end.

(** Each text of the list is a prefix of the next one. *)
Fixpoint grows (l : list string) : Prop :=
  match l with
  | [] => True
  | a :: l' =>
      match l' with
      | [] => True
      | b :: _ => String.prefix a b = true /\ grows l'
      end
  end.

(** ** Vocabulary of the properties *)

(** The query that [spotify_rec] sends to the search endpoint. *)
Definition search_query (track artist : string) : string :=
  "track:" +++ track +++ " artist:" +++ artist.

(** The three failure reasons of a lookup, read off the credentials and the
    provider's answers. *)
Definition missing_credentials (client_id client_secret : option string) : bool :=
  negb (truthy client_id) || negb (truthy client_secret).

Definition matches (E : Env) (track artist : string)
    (client_id client_secret : option string) : list Track :=
  sp_search E (str client_id) (str client_secret) (search_query track artist).

Definition recommended (E : Env) (track artist : string)
    (client_id client_secret : option string) : list Track :=
  match matches E track artist client_id client_secret with
  | [] => []
  | first :: _ =>
      sp_recommendations E (str client_id) (str client_secret) [uri first]
  end.

Definition is_nil {A} (l : list A) : bool :=
  match l with [] => true | _ :: _ => false end.

Definition lookup_fails (E : Env) (track artist : string)
    (client_id client_secret : option string) : bool :=
  missing_credentials client_id client_secret
  || is_nil (matches E track artist client_id client_secret)
  || is_nil (recommended E track artist client_id client_secret).

Definition has_artist (t : Track) : bool := negb (is_nil (artists t)).

(** The name of the first-listed artist of a track that has one. *)
Definition primary_artist (t : Track) : string :=
  match artists t with
  | a :: _ => artist_name a
  | [] => ""
  end.

Definition title_by_artist (t : Track) : string :=
  name t +++ " by " +++ primary_artist t.

(** The messages that one chat turn contributes: its non-empty sides. *)
Definition turn_messages (val : ChatTurn) : list Message :=
  (if truthy (fst val) then [{| role := user; content := str (fst val) |}] else [])
  ++ (if truthy (snd val) then [{| role := assistant; content := str (snd val) |}] else []).

(** The world after the client has been built and the search sent. *)
Definition searched (t a : string) (cid csec : option string) (w : World) : World :=
  record_call (Search (search_query t a))
    (record_call (SpotifyClient (str cid) (str csec)) w).

(** The world after the recommendations have been requested too. *)
Definition requested (t a : string) (cid csec : option string) (first : Track)
    (w : World) : World :=
  record_call (Recommendations [uri first]) (searched t a cid csec w).

(** The five ways through [spotify_rec], each with the world and the result
    it ends in. *)
Inductive lookup_path (E : Env) (t a : string) (cid csec : option string)
    (w : World) : World -> Result string -> Prop :=
| path_credentials :
    missing_credentials cid csec = true ->
    lookup_path E t a cid csec w (inc_world Failed w) (Returned MSG_CREDENTIALS)
| path_no_match :
    missing_credentials cid csec = false ->
    matches E t a cid csec = [] ->
    lookup_path E t a cid csec w
      (inc_world Failed (searched t a cid csec w)) (Returned MSG_NO_TRACKS)
| path_no_recommendations first others :
    missing_credentials cid csec = false ->
    matches E t a cid csec = first :: others ->
    recommended E t a cid csec = [] ->
    lookup_path E t a cid csec w
      (inc_world Failed (requested t a cid csec first w))
      (Returned MSG_NO_RECOMMENDATIONS)
| path_success first others :
    missing_credentials cid csec = false ->
    matches E t a cid csec = first :: others ->
    recommended E t a cid csec <> [] ->
    forallb has_artist (recommended E t a cid csec) = true ->
    lookup_path E t a cid csec w
      (inc_world Processed (inc_world Successful (requested t a cid csec first w)))
      (Returned (String.concat nl (map title_by_artist (recommended E t a cid csec))))
| path_index_error first others :
    missing_credentials cid csec = false ->
    matches E t a cid csec = first :: others ->
    recommended E t a cid csec <> [] ->
    forallb has_artist (recommended E t a cid csec) = false ->
    lookup_path E t a cid csec w (requested t a cid csec first w) (Raised IndexError).

(** An argument is missing when it is [None] or the empty string. *)
Definition absent_or_empty (o : option string) : Prop := o = None \/ o = Some "".

(** The response text that a generator holds at a control point: [r] in
    either loop; after the body has ended any text will do. *)
Definition holds (g : Gen) (r : string) : Prop :=
  match g with
  | Created _ => False
  | LocalLoop _ _ _ r' _ => r' = r
  | ApiLoop _ _ _ r' _ => r' = r
  | FinalYield => True
  | Closed => True
  end.

(** The body has ended: it will yield nothing more. *)
Definition ended (g : Gen) : Prop := g = FinalYield \/ g = Closed.

(** The text that a streamed token carries, if any. *)
Definition text_of (token : option string) : string :=
  match token with
  | Some s => s
  | None => ""
  end.

(** The body has been entered. *)
Definition started (g : Gen) : Prop :=
  match g with
  | Created _ => False
  | _ => True
  end.

(** The text that a chunk of either stream adds to the response; a chunk
    without a token position adds none (the body raises before it appends). *)
Definition api_text (message_chunk : ApiChunk) : string :=
  match api_token message_chunk with
  | Returned token => text_of token
  | Raised _ => ""
  end.

Definition local_text (output : LocalOutput) : string :=
  match local_token output with
  | Returned token => token
  | Raised _ => ""
  end.

Definition has_choice (message_chunk : ApiChunk) : bool :=
  negb (is_nil (choices message_chunk)).

Definition has_message (output : LocalOutput) : bool :=
  negb (is_nil (generated_text output)).

(** The responses obtained from [r] by appending the texts one after the
    other, and the last of them. *)
Fixpoint responses_from (r : string) (texts : list string) : list string :=
  match texts with
  | [] => []
  | x :: texts' => (r +++ x) :: responses_from (r +++ x) texts'
  end.

Definition response_after (r : string) (texts : list string) : string :=
  fold_left String.append texts r.

(** The chunks that a generator has not looked at yet. *)
Definition remaining (g : Gen) : nat :=
  match g with
  | LocalLoop _ _ _ _ outputs => length outputs
  | ApiLoop _ _ _ _ chunks => length chunks
  | _ => 0
  end.

(** [n] consecutive steps of the body. *)
Definition resumes (n : nat) : list Event := repeat Resume n.

(** The number of snapshots that a signal carries. *)
Definition yields (signal : Signal) : nat :=
  match signal with
  | Yield _ => 1
  | _ => 0
  end.

(** The seed and the history that a generator shows in its snapshots. *)
Definition frames (g : Gen) (t a : string) (h : list ChatTurn) : Prop :=
  match g with
  | Created _ => False
  | LocalLoop t' a' h' _ _ => t' = t /\ a' = a /\ h' = h
  | ApiLoop t' a' h' _ _ => t' = t /\ a' = a /\ h' = h
  | FinalYield => True
  | Closed => True
  end.

(** The world in which [respond] calls [spotify_rec]: flag reset, one user
    interaction counted. *)
Definition entered (w : World) : World :=
  inc_world Interactions (set_stop_inference false w).

Definition history_of (a : Args) : list ChatTurn :=
  match history a with None => [] | Some h => h end.

(** The lookup that [respond] performs, and what it builds from its text. *)
Definition respond_lookup (E : Env) (a : Args) (w : World) : World * Result string :=
  spotify_rec E (track_name a) (artist a) (client_id a) (client_secret a) (entered w).

Definition messages_of (a : Args) (recs : string) : list Message :=
  build_messages (system_message a) (history_of a) (track_name a) (artist a) recs.

Definition header_of (a : Args) (recs : string) : string :=
  response_header (track_name a) (artist a) recs.

Definition show (a : Args) (response : string) : Snapshot :=
  snapshot (history_of a) (track_name a) (artist a) response.

Definition is_resume (e : Event) : bool :=
  match e with Resume => true | CancelClick => false end.

(** A lookup request, with the provider that answers it. *)
Record Lookup := {
  lk_env : Env;
  lk_track : string;
  lk_artist : string;
  lk_client_id : option string;
  lk_client_secret : option string }.

Definition lookup (w : World) (c : Lookup) : World :=
  fst (spotify_rec (lk_env c) (lk_track c) (lk_artist c)
         (lk_client_id c) (lk_client_secret c) w).

(** The world after a sequence of lookups. *)
Definition lookups (cs : list Lookup) (w : World) : World := fold_left lookup cs w.

(** ** Concrete providers and requests *)

Definition seed : Track :=
  {| uri := "spotify:track:seed"; name := "Shape of You";
     artists := [{| artist_name := "Ed Sheeran" |}] |}.

Definition perfect : Track :=
  {| uri := "spotify:track:1"; name := "Perfect";
     artists := [{| artist_name := "Ed Sheeran" |}] |}.

Definition stay : Track :=
  {| uri := "spotify:track:2"; name := "Stay";
     artists := [{| artist_name := "Zedd" |}; {| artist_name := "Alessia Cara" |}] |}.

Definition text_chunk (t : option string) : ApiChunk :=
  {| choices := [{| delta := {| delta_content := t |} |}] |}.

Definition generated (t : string) : LocalOutput :=
  {| generated_text := [{| role := user; content := "hi" |};
                        {| role := assistant; content := t |}] |}.

(** The provider repeats [perfect]: the lookup has to keep both copies. *)
Definition demo_env : Env :=
  {| sp_search := fun _ _ _ => [seed];
     sp_recommendations := fun _ _ _ => [stay; perfect; stay; perfect];
     chat_completion := fun _ _ =>
       [text_chunk (Some "Great"); text_chunk None; text_chunk (Some " picks")];
     pipe := None |}.

Definition one_track_env : Env :=
  {| sp_search := fun _ _ _ => [seed];
     sp_recommendations := fun _ _ _ => [stay];
     chat_completion := fun _ _ => [];
     pipe := None |}.

Definition local_env : Env :=
  {| sp_search := sp_search demo_env;
     sp_recommendations := sp_recommendations demo_env;
     chat_completion := chat_completion demo_env;
     pipe := Some (fun _ _ => [generated "Lovely songs."]) |}.

Definition demo_args : Args :=
  {| track_name := "Shape of You";
     artist := "Ed Sheeran";
     history := Some [(Some "hello", None); (Some "", Some "welcome back")];
     system_message := "You are a music expert chatbot.";
     max_tokens := 512;
     use_local_model := false;
     client_id := Some "id";
     client_secret := Some "secret" |}.

Definition local_args : Args :=
  {| track_name := track_name demo_args;
     artist := artist demo_args;
     history := None;
     system_message := system_message demo_args;
     max_tokens := 64;
     use_local_model := true;
     client_id := client_id demo_args;
     client_secret := client_secret demo_args |}.

Definition no_credentials : Lookup :=
  {| lk_env := demo_env; lk_track := "Shape of You"; lk_artist := "Ed Sheeran";
     lk_client_id := Some ""; lk_client_secret := Some "secret" |}.

(** A provider whose second recommendation lists no artist. *)
Definition no_artist_env : Env :=
  {| sp_search := fun _ _ _ => [seed];
     sp_recommendations := fun _ _ _ =>
       [stay; {| uri := "spotify:track:3"; name := "Untitled"; artists := [] |}];
     chat_completion := chat_completion demo_env;
     pipe := None |}.

(** A provider that finds no track, and one that finds the seed but has
    nothing to recommend. *)
Definition no_match_env : Env :=
  {| sp_search := fun _ _ _ => [];
     sp_recommendations := sp_recommendations demo_env;
     chat_completion := chat_completion demo_env;
     pipe := None |}.

Definition no_recommendations_env : Env :=
  {| sp_search := fun _ _ _ => [seed; perfect];
     sp_recommendations := fun _ _ _ => [];
     chat_completion := chat_completion demo_env;
     pipe := None |}.

(** A provider with further matches, and other answers for other seeds. *)
Definition many_matches_env : Env :=
  {| sp_search := fun _ _ _ => [seed; perfect; stay];
     sp_recommendations := fun _ _ seeds =>
       match seeds with
       | [_] => [stay; perfect; stay; perfect]
       | _ => []
       end;
     chat_completion := fun _ _ => [];
     pipe := None |}.

(** The same request as [demo_args] without a client id. *)
Definition anonymous_args : Args :=
  {| track_name := track_name demo_args;
     artist := artist demo_args;
     history := history demo_args;
     system_message := system_message demo_args;
     max_tokens := max_tokens demo_args;
     use_local_model := false;
     client_id := None;
     client_secret := client_secret demo_args |}.

Definition anonymous_local_args : Args :=
  {| track_name := track_name demo_args;
     artist := artist demo_args;
     history := history demo_args;
     system_message := system_message demo_args;
     max_tokens := max_tokens demo_args;
     use_local_model := true;
     client_id := None;
     client_secret := client_secret demo_args |}.

(** ** Worked runs *)

Example lookup_run :
  snd (spotify_rec demo_env "Shape of You" "Ed Sheeran" (Some "id") (Some "secret")
         initial_world)
  = Returned ("Stay by Zedd" +++ nl +++ "Perfect by Ed Sheeran" +++ nl
              +++ "Stay by Zedd" +++ nl +++ "Perfect by Ed Sheeran").
Proof. reflexivity. Qed.

Example api_run :
  map snapshot_response
    (snapshots (run demo_env [Resume; Resume; Resume; CancelClick; Resume; Resume]
                  (Created demo_args) initial_world))
  = let h := response_header "Shape of You" "Ed Sheeran"
               ("Stay by Zedd" +++ nl +++ "Perfect by Ed Sheeran" +++ nl
                +++ "Stay by Zedd" +++ nl +++ "Perfect by Ed Sheeran") in
    [h +++ "Great"; h +++ "Great"; h +++ "Great" +++ CANCEL_MARKER].
Proof. reflexivity. Qed.

(** ** The lookup, path by path *)

(** On a track list in which every track has an artist the comprehension
    returns one rendered entry per track, in order. *)
Lemma comprehension_entries (l : list Track) :
  forallb has_artist l = true ->
  comprehension recommendation_entry l = Returned (map title_by_artist l).
Proof.
  induction l as [|t l IH]; simpl; intros H.
  - reflexivity.
  - apply andb_true_iff in H. destruct H as [Ht Hl].
    unfold recommendation_entry, title_by_artist, primary_artist, has_artist in *.
    destruct (artists t) as [|a more]; simpl in Ht; [discriminate|].
    rewrite (IH Hl). reflexivity.
Qed.

(** A track without artists makes the comprehension raise [IndexError]. *)
Lemma comprehension_raises (l : list Track) :
  forallb has_artist l = false ->
  comprehension recommendation_entry l = Raised IndexError.
Proof.
  induction l as [|t l IH]; simpl; intros H.
  - discriminate.
  - unfold recommendation_entry, has_artist in *.
    destruct (artists t) as [|a more]; simpl in *; [reflexivity|].
    rewrite (IH H). reflexivity.
Qed.

Lemma spotify_rec_no_credentials E t a cid csec w :
  missing_credentials cid csec = true ->
  spotify_rec E t a cid csec w = (inc_world Failed w, Returned MSG_CREDENTIALS).
Proof.
  unfold missing_credentials, spotify_rec. intros H. rewrite H. reflexivity.
Qed.

Lemma spotify_rec_no_match E t a cid csec w :
  missing_credentials cid csec = false ->
  matches E t a cid csec = [] ->
  spotify_rec E t a cid csec w
  = (inc_world Failed (searched t a cid csec w), Returned MSG_NO_TRACKS).
Proof.
  unfold missing_credentials, matches, search_query, spotify_rec. intros H Hm.
  rewrite H. unfold bind, Spotify, search. rewrite Hm. reflexivity.
Qed.

Lemma spotify_rec_no_recommendations E t a cid csec w first others :
  missing_credentials cid csec = false ->
  matches E t a cid csec = first :: others ->
  recommended E t a cid csec = [] ->
  spotify_rec E t a cid csec w
  = (inc_world Failed
       (record_call (Recommendations [uri first]) (searched t a cid csec w)),
     Returned MSG_NO_RECOMMENDATIONS).
Proof.
  unfold missing_credentials, recommended, matches, search_query, spotify_rec.
  intros H Hm Hr. rewrite H. unfold bind, Spotify, search. rewrite Hm in *.
  unfold recommendations. rewrite Hr. reflexivity.
Qed.

Lemma spotify_rec_recommends E t a cid csec w first others :
  missing_credentials cid csec = false ->
  matches E t a cid csec = first :: others ->
  recommended E t a cid csec <> [] ->
  spotify_rec E t a cid csec w
  = let w2 := record_call (Recommendations [uri first]) (searched t a cid csec w) in
    match comprehension recommendation_entry (recommended E t a cid csec) with
    | Returned l =>
        (inc_world Processed (inc_world Successful w2), Returned (String.concat nl l))
    | Raised e => (w2, Raised e)
    end.
Proof.
  unfold missing_credentials, recommended, matches, search_query, spotify_rec.
  intros H Hm Hr. rewrite H. unfold bind, Spotify, search. rewrite Hm in *.
  unfold recommendations, lift.
  destruct (sp_recommendations E (str cid) (str csec) [uri first]) as [|r rs];
    [congruence|].
  destruct (comprehension recommendation_entry (r :: rs)); reflexivity.
Qed.

Lemma spotify_rec_path E t a cid csec w :
  lookup_path E t a cid csec w
    (fst (spotify_rec E t a cid csec w)) (snd (spotify_rec E t a cid csec w)).
Proof.
  destruct (missing_credentials cid csec) eqn:Hc.
  - rewrite (spotify_rec_no_credentials E t a cid csec w Hc).
    now apply path_credentials.
  - destruct (matches E t a cid csec) as [|first others] eqn:Hm.
    + rewrite (spotify_rec_no_match E t a cid csec w Hc Hm).
      now apply path_no_match.
    + destruct (recommended E t a cid csec) as [|r rs] eqn:Hr.
      * rewrite (spotify_rec_no_recommendations E t a cid csec w first others Hc Hm Hr).
        now apply path_no_recommendations with others.
      * assert (Hne : recommended E t a cid csec <> []) by (rewrite Hr; discriminate).
        rewrite (spotify_rec_recommends E t a cid csec w first others Hc Hm Hne).
        cbv zeta. fold (requested t a cid csec first w).
        destruct (forallb has_artist (recommended E t a cid csec)) eqn:Hf.
        -- rewrite (comprehension_entries _ Hf). simpl fst. simpl snd.
           now apply path_success with others.
        -- rewrite (comprehension_raises _ Hf). simpl fst. simpl snd.
           now apply path_index_error with others.
Qed.

(** The lookup never touches the flag, the interaction counter or the
    cancellation counter. *)
Lemma spotify_rec_frame E t a cid csec w :
  let w' := fst (spotify_rec E t a cid csec w) in
  stop_inference w' = stop_inference w
  /\ interactions w' = interactions w
  /\ cancelled w' = cancelled w.
Proof.
  cbv zeta. destruct (spotify_rec_path E t a cid csec w); repeat split; reflexivity.
Qed.

(** The processed and the successful counter move together. *)
Lemma spotify_rec_balance E t a cid csec w :
  let w' := fst (spotify_rec E t a cid csec w) in
  processed w' + successful w = processed w + successful w'.
Proof.
  cbv zeta. destruct (spotify_rec_path E t a cid csec w);
    unfold processed, successful; simpl; lia.
Qed.

Lemma absent_or_empty_falsy o : absent_or_empty o <-> truthy o = false.
Proof.
  unfold absent_or_empty. split.
  - intros [-> | ->]; reflexivity.
  - destruct o as [[|c s]|]; simpl; intros H; [now right | discriminate | now left].
Qed.

(** ** Lookup claims *)

(** C2. When the client id or the client secret is absent or empty,
    [spotify_rec] returns "Please provide Spotify API credentials.", adds one
    to the failure counter and leaves the other counters and the list of
    outgoing calls as they were: no client is built and nothing is sent. *)
Theorem missing_credentials_fail_fast E t a cid csec w :
  absent_or_empty cid \/ absent_or_empty csec ->
  snd (spotify_rec E t a cid csec w)
  = Returned "Please provide Spotify API credentials."
  /\ failed (fst (spotify_rec E t a cid csec w)) = S (failed w)
  /\ successful (fst (spotify_rec E t a cid csec w)) = successful w
  /\ processed (fst (spotify_rec E t a cid csec w)) = processed w
  /\ calls (fst (spotify_rec E t a cid csec w)) = calls w.
Proof.
  intros H.
  assert (Hc : missing_credentials cid csec = true).
  { unfold missing_credentials.
    destruct H as [H | H]; apply absent_or_empty_falsy in H; rewrite H;
      [reflexivity | apply orb_true_r]. }
  rewrite (spotify_rec_no_credentials E t a cid csec w Hc).
  repeat split.
Qed.

Lemma missing_credentials_fail_fast_witness :
  snd (spotify_rec demo_env "Shape of You" "Ed Sheeran" (Some "") (Some "secret")
         initial_world)
  = Returned "Please provide Spotify API credentials."
  /\ failed (fst (spotify_rec demo_env "Shape of You" "Ed Sheeran" (Some "")
                    (Some "secret") initial_world)) = 1
  /\ calls (fst (spotify_rec demo_env "Shape of You" "Ed Sheeran" (Some "")
                   (Some "secret") initial_world)) = [].
Proof.
  destruct (missing_credentials_fail_fast demo_env "Shape of You" "Ed Sheeran"
              (Some "") (Some "secret") initial_world)
    as (Hr & Hf & _ & _ & Hcalls).
  - left. right. reflexivity.
  - split; [exact Hr | split; [exact Hf | exact Hcalls]].
Defined.

(** C5. With both credentials present, a track match [first] and a non-empty
    recommendation list [recs] whose tracks each list an artist, [spotify_rec]
    returns the entries of [recs] joined by line feeds: one entry per track,
    in the order and with the repetitions of [recs], each entry being the
    track's name, " by ", and the name of its first-listed artist.  The call
    counts as one success. *)
Theorem successful_lookup_text E t a cid csec w first others recs :
  truthy cid = true ->
  truthy csec = true ->
  sp_search E (str cid) (str csec) ("track:" +++ t +++ " artist:" +++ a)
  = first :: others ->
  sp_recommendations E (str cid) (str csec) [uri first] = recs ->
  recs <> [] ->
  forallb has_artist recs = true ->
  snd (spotify_rec E t a cid csec w)
  = Returned (String.concat nl (map title_by_artist recs))
  /\ successful (fst (spotify_rec E t a cid csec w)) = S (successful w)
  /\ Forall (fun tr => exists p more,
               artists tr = {| artist_name := p |} :: more
               /\ title_by_artist tr = name tr +++ " by " +++ p) recs.
Proof.
  intros Hid Hsec Hs Hr Hne Hall.
  assert (Hc : missing_credentials cid csec = false)
    by (unfold missing_credentials; rewrite Hid, Hsec; reflexivity).
  assert (Hm : matches E t a cid csec = first :: others) by exact Hs.
  assert (Hrec : recommended E t a cid csec = recs)
    by (unfold recommended; rewrite Hm; exact Hr).
  rewrite (spotify_rec_recommends E t a cid csec w first others Hc Hm)
    by (rewrite Hrec; exact Hne).
  cbv zeta. rewrite Hrec, (comprehension_entries _ Hall).
  split; [reflexivity | split; [reflexivity |]].
  apply Forall_forall. intros tr Hin.
  rewrite forallb_forall in Hall. specialize (Hall tr Hin).
  unfold has_artist, title_by_artist, primary_artist in *.
  destruct (artists tr) as [|[p] more]; [discriminate|].
  exists p, more. split; reflexivity.
Qed.

Lemma successful_lookup_text_witness :
  snd (spotify_rec demo_env "Shape of You" "Ed Sheeran" (Some "id") (Some "secret")
         initial_world)
  = Returned ("Stay by Zedd" +++ nl +++ "Perfect by Ed Sheeran" +++ nl
              +++ "Stay by Zedd" +++ nl +++ "Perfect by Ed Sheeran").
Proof.
  refine (proj1 (successful_lookup_text demo_env "Shape of You" "Ed Sheeran"
                   (Some "id") (Some "secret") initial_world seed []
                   [stay; perfect; stay; perfect] _ _ _ _ _ _));
    try reflexivity.
  discriminate.
Defined.

(** C9. The requests-processed counter is incremented exactly when a lookup
    succeeds: each of the three failure paths leaves it unchanged, a lookup
    that fails for none of the three reasons and returns adds one to it and
    to the success counter (and it returns whenever every recommended track
    lists an artist), and a call that raises leaves it unchanged.  The two
    counters move together, so after any sequence of lookups in a fresh
    process they are equal; the processed counter is not the number of
    requests, as one lookup without credentials shows. *)
Theorem processed_counts_successes :
  (forall E t a cid csec w,
     lookup_fails E t a cid csec = true ->
     processed (fst (spotify_rec E t a cid csec w)) = processed w)
  /\ (forall E t a cid csec w text,
        lookup_fails E t a cid csec = false ->
        snd (spotify_rec E t a cid csec w) = Returned text ->
        processed (fst (spotify_rec E t a cid csec w)) = S (processed w)
        /\ successful (fst (spotify_rec E t a cid csec w)) = S (successful w))
  /\ (forall E t a cid csec w,
        lookup_fails E t a cid csec = false ->
        forallb has_artist (recommended E t a cid csec) = true ->
        (exists text, snd (spotify_rec E t a cid csec w) = Returned text)
        /\ processed (fst (spotify_rec E t a cid csec w)) = S (processed w))
  /\ (forall E t a cid csec w e,
        snd (spotify_rec E t a cid csec w) = Raised e ->
        processed (fst (spotify_rec E t a cid csec w)) = processed w)
  /\ (forall E t a cid csec w,
        processed (fst (spotify_rec E t a cid csec w)) = S (processed w)
        <-> successful (fst (spotify_rec E t a cid csec w)) = S (successful w))
  /\ (forall cs, processed (lookups cs initial_world)
                 = successful (lookups cs initial_world))
  /\ processed (lookups [no_credentials] initial_world) = 0.
Proof.
  split; [|split; [|split; [|split; [|split; [|split]]]]].
  - intros E t a cid csec w Hf. unfold lookup_fails in Hf.
    destruct (spotify_rec_path E t a cid csec w) as [| | | f o Hc Hm Hr _ | f o Hc Hm Hr _];
      try reflexivity.
    exfalso. rewrite Hc, Hm in Hf. simpl in Hf.
    destruct (recommended E t a cid csec); [congruence | discriminate].
  - intros E t a cid csec w text Hf. unfold lookup_fails in Hf.
    destruct (spotify_rec_path E t a cid csec w)
      as [Hc | Hc Hm | f o Hc Hm Hr | f o Hc Hm Hr Hall | f o Hc Hm Hr Hall];
      intros Hret.
    + rewrite Hc in Hf. discriminate.
    + rewrite Hc, Hm in Hf. discriminate.
    + rewrite Hc, Hm, Hr in Hf. discriminate.
    + split; reflexivity.
    + discriminate.
  - intros E t a cid csec w Hf Hall. unfold lookup_fails in Hf.
    destruct (spotify_rec_path E t a cid csec w)
      as [Hc | Hc Hm | f o Hc Hm Hr | f o Hc Hm Hr Hall' | f o Hc Hm Hr Hall'].
    + rewrite Hc in Hf. discriminate.
    + rewrite Hc, Hm in Hf. discriminate.
    + rewrite Hc, Hm, Hr in Hf. discriminate.
    + split; [now eexists | reflexivity].
    + congruence.
  - intros E t a cid csec w e.
    destruct (spotify_rec_path E t a cid csec w); intros Hret;
      try discriminate; reflexivity.
  - intros E t a cid csec w.
    pose proof (spotify_rec_balance E t a cid csec w) as Hb. cbv zeta in Hb.
    split; intros H; lia.
  - intros cs.
    assert (G : forall w, processed w = successful w ->
                          processed (lookups cs w) = successful (lookups cs w)).
    { induction cs as [|c cs IH]; intros w Hw; simpl; [exact Hw|].
      apply IH. unfold lookup.
      pose proof (spotify_rec_balance (lk_env c) (lk_track c) (lk_artist c)
                    (lk_client_id c) (lk_client_secret c) w) as Hb.
      cbv zeta in Hb. lia. }
    apply G. reflexivity.
  - reflexivity.
Qed.

Lemma processed_counts_successes_witness :
  processed (fst (spotify_rec demo_env "Shape of You" "Ed Sheeran" None
                    (Some "secret") initial_world)) = 0
  /\ processed (fst (spotify_rec demo_env "Shape of You" "Ed Sheeran" (Some "id")
                       (Some "secret") initial_world)) = 1
  /\ processed (fst (spotify_rec no_artist_env "Shape of You" "Ed Sheeran" (Some "id")
                       (Some "secret") initial_world)) = 0.
Proof.
  split; [|split].
  - apply (proj1 processed_counts_successes demo_env "Shape of You" "Ed Sheeran"
             None (Some "secret") initial_world).
    reflexivity.
  - exact (proj1 (proj1 (proj2 processed_counts_successes) demo_env "Shape of You"
                    "Ed Sheeran" (Some "id") (Some "secret") initial_world _
                    eq_refl eq_refl)).
  - exact (proj1 (proj2 (proj2 (proj2 processed_counts_successes))) no_artist_env
             "Shape of You" "Ed Sheeran" (Some "id") (Some "secret") initial_world
             IndexError eq_refl).
Defined.

(** ** Strings and snapshots *)

Lemma append_empty_r (s : string) : s +++ "" = s.
Proof. induction s as [|c s IH]; simpl; [reflexivity | now rewrite IH]. Qed.

Lemma prefix_append (a b : string) : String.prefix a (a +++ b) = true.
Proof.
  induction a as [|x a IH]; simpl.
  - destruct b; reflexivity.
  - destruct (ascii_dec x x) as [_|N]; [exact IH | now elim N].
Qed.

Lemma prefix_refl (a : string) : String.prefix a a = true.
Proof. rewrite <- (append_empty_r a) at 2. apply prefix_append. Qed.

Lemma prefix_trans (a b c : string) :
  String.prefix a b = true -> String.prefix b c = true -> String.prefix a c = true.
Proof.
  revert b c. induction a as [|x a IH]; intros b c Hab Hbc.
  - destruct c; reflexivity.
  - destruct b as [|y b]; [discriminate|].
    destruct c as [|z c]; [discriminate|].
    simpl in *.
    destruct (ascii_dec x y) as [->|]; [|discriminate].
    destruct (ascii_dec y z) as [->|]; [|discriminate].
    destruct (ascii_dec z z) as [_|N]; [|now elim N].
    now apply IH with b.
Qed.

Lemma last_item_snoc {A} (l : list A) (x : A) : last_item (l ++ [x]) = Returned x.
Proof.
  induction l as [|y l IH]; simpl; [reflexivity|].
  rewrite IH. destruct (l ++ [x]) eqn:E; [|reflexivity].
  now destruct l.
Qed.

Lemma snapshot_response_snapshot h t a r :
  snapshot_response (snapshot h t a r) = r.
Proof. unfold snapshot_response, snapshot. now rewrite last_item_snoc. Qed.

Lemma grows_cons (a : string) (l : list string) :
  Forall (fun x => String.prefix a x = true) l -> grows l -> grows (a :: l).
Proof.
  intros H G. destruct l as [|b l]; [exact I|].
  split; [now inversion H | exact G].
Qed.

Lemma Forall_prefix_weaken (a b : string) (l : list string) :
  String.prefix a b = true ->
  Forall (fun x => String.prefix b x = true) l ->
  Forall (fun x => String.prefix a x = true) l.
Proof.
  intros Hab H. eapply Forall_impl; [|exact H].
  intros x Hx. now apply prefix_trans with b.
Qed.

(** ** Message assembly *)

Lemma append_turn_messages (messages : list Message) (val : ChatTurn) :
  append_turn messages val = messages ++ turn_messages val.
Proof.
  unfold append_turn, turn_messages.
  destruct (truthy (fst val)), (truthy (snd val)); simpl;
    rewrite <- ?app_assoc, ?app_nil_r; reflexivity.
Qed.

Lemma fold_append_turn (h : list ChatTurn) (messages : list Message) :
  fold_left append_turn h messages = messages ++ flat_map turn_messages h.
Proof.
  revert messages. induction h as [|val h IH]; intros messages; simpl.
  - now rewrite app_nil_r.
  - rewrite IH, append_turn_messages. now rewrite <- app_assoc.
Qed.

Lemma turn_messages_roles (h : list ChatTurn) :
  Forall (fun m => role m = user \/ role m = assistant) (flat_map turn_messages h).
Proof.
  induction h as [|val h IH]; simpl; [constructor|].
  apply Forall_app. split; [|exact IH].
  unfold turn_messages.
  destruct (truthy (fst val)), (truthy (snd val)); simpl;
    repeat (apply Forall_cons; [simpl; auto|]); apply Forall_nil.
Qed.

(** ** Steps of the generator *)

Lemma respond_step_ended E g w :
  ended g -> respond_step E g w = (w, StopIteration, Closed).
Proof. intros [-> | ->]; reflexivity. Qed.

(** Once the body has ended nothing is yielded, and only the flag can still
    change. *)
Lemma run_ended E events g w :
  ended g ->
  snapshots (run E events g w) = []
  /\ metrics (end_world (run E events g w)) = metrics w
  /\ calls (end_world (run E events g w)) = calls w
  /\ ended (end_gen (run E events g w)).
Proof.
  revert g w. induction events as [|[|] events IH]; intros g w Hg; simpl.
  - repeat split. exact Hg.
  - rewrite (respond_step_ended E g w Hg).
    apply (IH Closed w). now right.
  - destruct (IH g (cancel_inference w) Hg) as (Hs & Hm & Hc & He).
    repeat split; assumption.
Qed.

(** A step inside a loop only extends the response, and what it yields shows
    the extended response. *)
Lemma respond_step_extends E g w r :
  holds g r ->
  exists r',
    String.prefix r r' = true
    /\ holds (snd (respond_step E g w)) r'
    /\ forall s, snd (fst (respond_step E g w)) = Yield s -> snapshot_response s = r'.
Proof.
  destruct g as [a | t a h r0 [|output rest] | t a h r0 [|chunk rest] | |];
    simpl; intros Hg; try contradiction; subst;
    try (exists r; split; [apply prefix_refl | split; [exact I | discriminate]]).
  - unfold local_chunk. destruct (stop_inference w).
    + exists (r +++ CANCEL_MARKER). split; [apply prefix_append|].
      split; [exact I|]. intros s [= <-]. apply snapshot_response_snapshot.
    + destruct (local_token output) as [token|e]; simpl.
      * exists (r +++ token). split; [apply prefix_append|].
        split; [reflexivity|]. intros s [= <-]. apply snapshot_response_snapshot.
      * exists r. split; [apply prefix_refl | split; [exact I | discriminate]].
  - unfold api_chunk. destruct (stop_inference w).
    + exists (r +++ CANCEL_MARKER). split; [apply prefix_append|].
      split; [exact I|]. intros s [= <-]. apply snapshot_response_snapshot.
    + destruct (api_token chunk) as [token|e]; simpl.
      * exists (if truthy token then r +++ str token else r).
        split; [destruct (truthy token); [apply prefix_append | apply prefix_refl]|].
        split; [reflexivity|]. intros s [= <-]. apply snapshot_response_snapshot.
      * exists r. split; [apply prefix_refl | split; [exact I | discriminate]].
Qed.

(** From a control point holding [r], every text yielded later extends [r]
    and the yielded texts extend one another. *)
Lemma run_grows E events g w r :
  holds g r ->
  Forall (fun x => String.prefix r x = true)
    (map snapshot_response (snapshots (run E events g w)))
  /\ grows (map snapshot_response (snapshots (run E events g w))).
Proof.
  revert g w r. induction events as [|[|] events IH]; intros g w r Hg; simpl.
  - split; [constructor | exact I].
  - destruct (respond_step_extends E g w r Hg) as (r' & Hp & Hh & Hy).
    destruct (respond_step E g w) as [[w' signal] g']. simpl in Hh, Hy.
    destruct (IH g' w' r' Hh) as [HF HG].
    destruct signal as [s| | |]; simpl;
      try (split; [now apply Forall_prefix_weaken with r' | exact HG]).
    rewrite (Hy s eq_refl). split.
    + constructor; [exact Hp | now apply Forall_prefix_weaken with r'].
    + now apply grows_cons.
  - apply IH. exact Hg.
Qed.

(** [respond_enter], case by case on the lookup and the selected backend. *)
Lemma respond_enter_raises E a w e :
  snd (respond_lookup E a w) = Raised e ->
  respond_enter E a w = (fst (respond_lookup E a w), Raise e, Closed).
Proof.
  unfold respond_lookup, respond_enter. fold (entered w).
  destruct (spotify_rec _ _ _ _ _ _) as [w1 [recs|e']]; simpl; congruence.
Qed.

Lemma respond_enter_api E a w recs :
  snd (respond_lookup E a w) = Returned recs ->
  use_local_model a = false ->
  respond_enter E a w
  = (record_call (ChatCompletion (messages_of a recs) (max_tokens a))
       (fst (respond_lookup E a w)),
     Running,
     ApiLoop (track_name a) (artist a) (history_of a) (header_of a recs)
       (chat_completion E (messages_of a recs) (max_tokens a))).
Proof.
  unfold respond_lookup, respond_enter. fold (entered w). fold (history_of a).
  destruct (spotify_rec _ _ _ _ _ _) as [w1 [recs'|e']]; simpl; [|discriminate].
  intros [= ->] ->. reflexivity.
Qed.

Lemma respond_enter_local E a w recs p :
  snd (respond_lookup E a w) = Returned recs ->
  use_local_model a = true ->
  pipe E = Some p ->
  respond_enter E a w
  = (record_call (Pipe (messages_of a recs) (max_tokens a))
       (fst (respond_lookup E a w)),
     Running,
     LocalLoop (track_name a) (artist a) (history_of a) (header_of a recs)
       (p (messages_of a recs) (max_tokens a))).
Proof.
  unfold respond_lookup, respond_enter. fold (entered w). fold (history_of a).
  destruct (spotify_rec _ _ _ _ _ _) as [w1 [recs'|e']]; simpl; [|discriminate].
  intros [= ->] -> ->. reflexivity.
Qed.

Lemma respond_enter_name_error E a w recs :
  snd (respond_lookup E a w) = Returned recs ->
  use_local_model a = true ->
  pipe E = None ->
  respond_enter E a w
  = (inc_world Failed (fst (respond_lookup E a w)),
     Yield (show a (header_of a recs +++ NOT_CONFIGURED)),
     FinalYield).
Proof.
  unfold respond_lookup, respond_enter. fold (entered w). fold (history_of a).
  destruct (spotify_rec _ _ _ _ _ _) as [w1 [recs'|e']]; simpl; [|discriminate].
  intros [= ->] -> ->. reflexivity.
Qed.

(** The first step leaves a generator that holds an extension of the header
    and yields nothing that is not such an extension. *)
Lemma respond_enter_header E a w :
  match snd (respond_lookup E a w) with
  | Raised e => respond_enter E a w = (fst (respond_lookup E a w), Raise e, Closed)
  | Returned recs =>
      exists r',
        String.prefix (header_of a recs) r' = true
        /\ holds (snd (respond_enter E a w)) r'
        /\ forall s, snd (fst (respond_enter E a w)) = Yield s ->
                     snapshot_response s = r'
  end.
Proof.
  destruct (snd (respond_lookup E a w)) as [recs|e] eqn:Hl.
  - destruct (use_local_model a) eqn:Hu.
    + destruct (pipe E) as [p|] eqn:Hp.
      * rewrite (respond_enter_local E a w recs p Hl Hu Hp). simpl.
        exists (header_of a recs).
        split; [apply prefix_refl | split; [reflexivity | discriminate]].
      * rewrite (respond_enter_name_error E a w recs Hl Hu Hp). simpl.
        exists (header_of a recs +++ NOT_CONFIGURED).
        split; [apply prefix_append | split; [exact I|]].
        intros s [= <-]. apply snapshot_response_snapshot.
    + rewrite (respond_enter_api E a w recs Hl Hu). simpl.
      exists (header_of a recs).
      split; [apply prefix_refl | split; [reflexivity | discriminate]].
  - now apply respond_enter_raises.
Qed.

(** A chunk without a first choice, or an output without a generated
    message, ends the generator with [IndexError] when the flag is not set. *)
Lemma chunk_without_token E t a h r w chunks outputs :
  stop_inference w = false ->
  respond_step E (ApiLoop t a h r ({| choices := [] |} :: chunks)) w
  = (w, Raise IndexError, Closed)
  /\ respond_step E (LocalLoop t a h r ({| generated_text := [] |} :: outputs)) w
     = (w, Raise IndexError, Closed).
Proof.
  intros H. simpl. unfold api_chunk, local_chunk. rewrite H. split; reflexivity.
Qed.

(** Counters under the steps of the generator. *)
Lemma respond_enter_interactions E a w :
  interactions (fst (fst (respond_enter E a w))) = S (interactions w)
  /\ started (snd (respond_enter E a w)).
Proof.
  pose proof (spotify_rec_frame E (track_name a) (artist a) (client_id a)
                (client_secret a) (entered w)) as (_ & Hi & _).
  fold (respond_lookup E a w) in Hi.
  destruct (snd (respond_lookup E a w)) as [recs|e] eqn:Hl.
  - destruct (use_local_model a) eqn:Hu.
    + destruct (pipe E) as [p|] eqn:Hp.
      * rewrite (respond_enter_local E a w recs p Hl Hu Hp). simpl.
        split; [exact Hi | exact I].
      * rewrite (respond_enter_name_error E a w recs Hl Hu Hp). simpl.
        split; [exact Hi | exact I].
    + rewrite (respond_enter_api E a w recs Hl Hu). simpl.
      split; [exact Hi | exact I].
  - rewrite (respond_enter_raises E a w e Hl). simpl. split; [exact Hi | exact I].
Qed.

Lemma respond_step_started E g w :
  started g ->
  interactions (fst (fst (respond_step E g w))) = interactions w
  /\ started (snd (respond_step E g w)).
Proof.
  destruct g as [a | t a h r [|output rest] | t a h r [|chunk rest] | |];
    simpl; intros Hg; try contradiction; try (split; [reflexivity | exact I]).
  - unfold local_chunk. destruct (stop_inference w); [split; [reflexivity | exact I]|].
    destruct (local_token output); split; try reflexivity; exact I.
  - unfold api_chunk. destruct (stop_inference w); [split; [reflexivity | exact I]|].
    destruct (api_token chunk); split; try reflexivity; exact I.
Qed.

Lemma run_started E events g w :
  started g -> interactions (end_world (run E events g w)) = interactions w.
Proof.
  revert g w. induction events as [|[|] events IH]; intros g w Hg; simpl.
  - reflexivity.
  - destruct (respond_step_started E g w Hg) as [Hi Hs].
    destruct (respond_step E g w) as [[w' signal] g']. simpl in Hi, Hs.
    rewrite <- Hi, <- (IH g' w' Hs). now destruct signal.
  - now rewrite (IH g (cancel_inference w) Hg).
Qed.

(** ** Claims on the generator *)

(** C1. In either loop, when a chunk is there and [stop_inference] is set,
    the step adds one to the cancellation counter, yields one snapshot whose
    response is the response so far followed by the cancellation marker (the
    chunk's token is not appended), and suspends at a [yield] followed by
    [return]: whatever happens afterwards, that snapshot stays the only one,
    the counter stays one higher and the body is over. *)
Theorem cancellation_ends_stream E t a h r w :
  stop_inference w = true ->
  (forall (output : LocalOutput) rest events,
     respond_step E (LocalLoop t a h r (output :: rest)) w
     = (inc_world Cancelled w, Yield (snapshot h t a (r +++ CANCEL_MARKER)), FinalYield)
     /\ snapshots (run E (Resume :: events) (LocalLoop t a h r (output :: rest)) w)
        = [snapshot h t a (r +++ CANCEL_MARKER)]
     /\ cancelled (end_world
                     (run E (Resume :: events) (LocalLoop t a h r (output :: rest)) w))
        = S (cancelled w)
     /\ ended (end_gen
                 (run E (Resume :: events) (LocalLoop t a h r (output :: rest)) w)))
  /\ (forall (message_chunk : ApiChunk) rest events,
        respond_step E (ApiLoop t a h r (message_chunk :: rest)) w
        = (inc_world Cancelled w, Yield (snapshot h t a (r +++ CANCEL_MARKER)),
           FinalYield)
        /\ snapshots (run E (Resume :: events) (ApiLoop t a h r (message_chunk :: rest)) w)
           = [snapshot h t a (r +++ CANCEL_MARKER)]
        /\ cancelled (end_world
                        (run E (Resume :: events)
                           (ApiLoop t a h r (message_chunk :: rest)) w))
           = S (cancelled w)
        /\ ended (end_gen
                    (run E (Resume :: events)
                       (ApiLoop t a h r (message_chunk :: rest)) w)))
  /\ snapshot_response (snapshot h t a (r +++ CANCEL_MARKER)) = r +++ CANCEL_MARKER.
Proof.
  intros Hstop.
  assert (Hend : ended FinalYield) by now left.
  split; [|split].
  - intros output rest events. simpl. unfold local_chunk. rewrite Hstop. simpl.
    destruct (run_ended E events FinalYield (inc_world Cancelled w) Hend)
      as (Hs & Hm & _ & He).
    rewrite Hs. unfold cancelled. rewrite Hm. repeat split. exact He.
  - intros chunk rest events. simpl. unfold api_chunk. rewrite Hstop. simpl.
    destruct (run_ended E events FinalYield (inc_world Cancelled w) Hend)
      as (Hs & Hm & _ & He).
    rewrite Hs. unfold cancelled. rewrite Hm. repeat split. exact He.
  - apply snapshot_response_snapshot.
Qed.

Lemma cancellation_ends_stream_witness :
  snapshots
    (run demo_env [Resume; Resume; Resume]
       (ApiLoop "Shape of You" "Ed Sheeran" [] "So far"
          [text_chunk (Some " more"); text_chunk (Some " and more")])
       (cancel_inference initial_world))
  = [[(Some "Shape of You by Ed Sheeran", Some ("So far" +++ CANCEL_MARKER))]]
  /\ snapshots
       (run local_env [Resume; CancelClick; Resume]
          (LocalLoop "Shape of You" "Ed Sheeran" [] "So far"
             [generated " more"; generated " and more"])
          (cancel_inference initial_world))
     = [[(Some "Shape of You by Ed Sheeran", Some ("So far" +++ CANCEL_MARKER))]].
Proof.
  split.
  - exact (proj1 (proj2 (proj1 (proj2
             (cancellation_ends_stream demo_env "Shape of You" "Ed Sheeran" []
                "So far" (cancel_inference initial_world) eq_refl))
             (text_chunk (Some " more")) [text_chunk (Some " and more")]
             [Resume; Resume]))).
  - exact (proj1 (proj2 (proj1
             (cancellation_ends_stream local_env "Shape of You" "Ed Sheeran" []
                "So far" (cancel_inference initial_world) eq_refl)
             (generated " more") [generated " and more"]
             [CancelClick; Resume]))).
Defined.

(** C4. In either loop, when a chunk is there and [stop_inference] is not
    set, the step yields one snapshot and moves on to the rest of the stream
    with the world unchanged.  In the API loop the response grows by the text
    of the chunk's token, and stays as it is when the token is [None] or
    empty; in the local loop it grows by the content of the last generated
    message, which leaves it as it is when that content is empty. *)
Theorem chunk_appends_and_yields E t a h r w :
  stop_inference w = false ->
  (forall message_chunk rest token,
     api_token message_chunk = Returned token ->
     respond_step E (ApiLoop t a h r (message_chunk :: rest)) w
     = (w, Yield (snapshot h t a (r +++ text_of token)),
        ApiLoop t a h (r +++ text_of token) rest)
     /\ (truthy token = false -> r +++ text_of token = r))
  /\ (forall output rest token,
        local_token output = Returned token ->
        respond_step E (LocalLoop t a h r (output :: rest)) w
        = (w, Yield (snapshot h t a (r +++ token)),
           LocalLoop t a h (r +++ token) rest)
        /\ (token = "" -> r +++ token = r)).
Proof.
  intros Hstop. split.
  - intros chunk rest token Htok. simpl. unfold api_chunk. rewrite Hstop, Htok.
    destruct token as [[|c s]|]; simpl; rewrite ?append_empty_r;
      (split; [reflexivity | intros; reflexivity || discriminate]).
  - intros output rest token Htok. simpl. unfold local_chunk.
    rewrite Hstop, Htok. split; [reflexivity|].
    intros ->. apply append_empty_r.
Qed.

Lemma chunk_appends_and_yields_witness :
  respond_step demo_env
    (ApiLoop "Shape of You" "Ed Sheeran" [] "So far"
       [text_chunk (Some " more"); text_chunk None]) initial_world
  = (initial_world,
     Yield [(Some "Shape of You by Ed Sheeran", Some "So far more")],
     ApiLoop "Shape of You" "Ed Sheeran" [] "So far more" [text_chunk None])
  /\ respond_step demo_env
       (ApiLoop "Shape of You" "Ed Sheeran" [] "So far more" [text_chunk None])
       initial_world
     = (initial_world,
        Yield [(Some "Shape of You by Ed Sheeran", Some "So far more")],
        ApiLoop "Shape of You" "Ed Sheeran" [] "So far more" [])
  /\ respond_step demo_env
       (LocalLoop "Shape of You" "Ed Sheeran" [] "So far" [generated " more"])
       initial_world
     = (initial_world,
        Yield [(Some "Shape of You by Ed Sheeran", Some "So far more")],
        LocalLoop "Shape of You" "Ed Sheeran" [] "So far more" []).
Proof.
  split; [|split].
  - exact (proj1 (proj1 (chunk_appends_and_yields demo_env "Shape of You" "Ed Sheeran"
                           [] "So far" initial_world eq_refl)
                    (text_chunk (Some " more")) [text_chunk None] (Some " more")
                    eq_refl)).
  - exact (proj1 (proj1 (chunk_appends_and_yields demo_env "Shape of You" "Ed Sheeran"
                           [] "So far more" initial_world eq_refl)
                    (text_chunk None) [] None eq_refl)).
  - exact (proj1 (proj2 (chunk_appends_and_yields demo_env "Shape of You" "Ed Sheeran"
                           [] "So far" initial_world eq_refl)
                    (generated " more") [] " more" eq_refl)).
Defined.

(** C3. The message list built by [respond] is the system message carrying
    the system prompt, then, turn by turn in history order, a user message
    for a non-empty user side and an assistant message for a non-empty
    assistant side, then one user message with the seed track, the seed
    artist, the text returned by the lookup and the request for elaboration.
    When the lookup has returned its text, this list is what the selected
    backend is called with. *)
Theorem message_list_shape E a w recs :
  snd (respond_lookup E a w) = Returned recs ->
  messages_of a recs
  = {| role := system; content := system_message a |}
    :: flat_map turn_messages (history_of a)
    ++ [{| role := user;
           content :=
             "I like '" +++ track_name a +++ "' by " +++ artist a
             +++ ". Here are some Spotify recommendations:" +++ nl +++ recs
             +++ nl +++ nl
             +++ "Can you tell me more about these songs and suggest why I might enjoy them?"
        |}]
  /\ Forall (fun m => role m = user \/ role m = assistant)
       (flat_map turn_messages (history_of a))
  /\ (forall u s, turn_messages (u, s)
                  = (if truthy u then [{| role := user; content := str u |}] else [])
                    ++ (if truthy s then [{| role := assistant; content := str s |}]
                        else []))
  /\ (use_local_model a = false ->
      snd (respond_step E (Created a) w)
      = ApiLoop (track_name a) (artist a) (history_of a) (header_of a recs)
          (chat_completion E (messages_of a recs) (max_tokens a))
      /\ calls (fst (fst (respond_step E (Created a) w)))
         = calls (fst (respond_lookup E a w))
           ++ [ChatCompletion (messages_of a recs) (max_tokens a)])
  /\ (forall p, use_local_model a = true -> pipe E = Some p ->
      snd (respond_step E (Created a) w)
      = LocalLoop (track_name a) (artist a) (history_of a) (header_of a recs)
          (p (messages_of a recs) (max_tokens a))
      /\ calls (fst (fst (respond_step E (Created a) w)))
         = calls (fst (respond_lookup E a w))
           ++ [Pipe (messages_of a recs) (max_tokens a)]).
Proof.
  intros Hl. split; [|split; [|split; [|split]]].
  - unfold messages_of, build_messages. rewrite fold_append_turn. reflexivity.
  - apply turn_messages_roles.
  - reflexivity.
  - intros Hu. simpl. rewrite (respond_enter_api E a w recs Hl Hu). split; reflexivity.
  - intros p Hu Hp. simpl. rewrite (respond_enter_local E a w recs p Hl Hu Hp).
    split; reflexivity.
Qed.

Lemma message_list_shape_witness :
  messages_of demo_args "Stay by Zedd"
  = [ {| role := system; content := "You are a music expert chatbot." |};
      {| role := user; content := "hello" |};
      {| role := assistant; content := "welcome back" |};
      {| role := user;
         content :=
           "I like 'Shape of You' by Ed Sheeran. Here are some Spotify recommendations:"
           +++ nl +++ "Stay by Zedd" +++ nl +++ nl
           +++ "Can you tell me more about these songs and suggest why I might enjoy them?"
      |} ]
  /\ calls (fst (fst (respond_step one_track_env (Created demo_args) initial_world)))
     = [SpotifyClient "id" "secret";
        Search "track:Shape of You artist:Ed Sheeran";
        Recommendations ["spotify:track:seed"];
        ChatCompletion (messages_of demo_args "Stay by Zedd") 512]
  /\ snd (respond_step local_env (Created local_args) initial_world)
     = LocalLoop "Shape of You" "Ed Sheeran" []
         (header_of local_args
            ("Stay by Zedd" +++ nl +++ "Perfect by Ed Sheeran" +++ nl
             +++ "Stay by Zedd" +++ nl +++ "Perfect by Ed Sheeran"))
         [generated "Lovely songs."].
Proof.
  split; [|split].
  - exact (proj1 (message_list_shape one_track_env demo_args initial_world
                    "Stay by Zedd" eq_refl)).
  - exact (proj2 (proj1 (proj2 (proj2 (proj2
             (message_list_shape one_track_env demo_args initial_world
                "Stay by Zedd" eq_refl)))) eq_refl)).
  - exact (proj1 (proj2 (proj2 (proj2 (proj2
             (message_list_shape local_env local_args initial_world _ eq_refl))))
             _ eq_refl eq_refl)).
Defined.

(** C6. Whatever the interleaving of steps and Cancel clicks, the responses
    of the snapshots yielded by a call of [respond] form a chain in which each
    text is a prefix of the next, and the first of them starts with the
    header built from the text that the lookup returned. *)
Theorem snapshots_grow_by_append E events a w :
  grows (map snapshot_response (snapshots (run E events (Created a) w)))
  /\ match map snapshot_response (snapshots (run E events (Created a) w)) with
     | [] => True
     | first :: _ =>
         exists recs,
           snd (respond_lookup E a w) = Returned recs
           /\ String.prefix
                ("**Spotify Recommendations based on '" +++ track_name a
                 +++ "' by " +++ artist a +++ ":**" +++ nl +++ recs +++ nl +++ nl)
                first = true
     end.
Proof.
  revert w. induction events as [|[|] events IH]; intros w.
  - simpl. split; exact I.
  - cbn [run respond_step].
    pose proof (respond_enter_header E a w) as H.
    destruct (snd (respond_lookup E a w)) as [recs|e] eqn:Hl.
    + destruct H as (r' & Hp & Hh & Hy).
      destruct (respond_enter E a w) as [[w' signal] g']. simpl in Hh, Hy.
      destruct (run_grows E events g' w' r' Hh) as [HF HG].
      destruct signal as [s| | |]; cbn [snapshots map].
      * rewrite (Hy s eq_refl). split; [now apply grows_cons|].
        exists recs. split; [reflexivity | exact Hp].
      * split; [exact HG|].
        destruct (map snapshot_response (snapshots (run E events g' w')))
          as [|first l]; [exact I|].
        exists recs. split; [reflexivity|].
        apply prefix_trans with r'; [exact Hp | now inversion HF].
      * split; [exact HG|].
        destruct (map snapshot_response (snapshots (run E events g' w')))
          as [|first l]; [exact I|].
        exists recs. split; [reflexivity|].
        apply prefix_trans with r'; [exact Hp | now inversion HF].
      * split; [exact HG|].
        destruct (map snapshot_response (snapshots (run E events g' w')))
          as [|first l]; [exact I|].
        exists recs. split; [reflexivity|].
        apply prefix_trans with r'; [exact Hp | now inversion HF].
    + rewrite H.
      assert (Hend : ended Closed) by now right.
      destruct (run_ended E events Closed (fst (respond_lookup E a w)) Hend)
        as (Hs & _).
      rewrite Hs. simpl. split; exact I.
  - exact (IH (cancel_inference w)).
Qed.

(** C7. When the local model is selected and [pipe] is not bound, a call of
    [respond] whose lookup has returned yields exactly one snapshot, the
    header followed by the configuration notice, adds one to the failure
    counter on top of what the lookup counted, calls no backend, and is
    over. *)
Theorem unconfigured_local_model E a w recs events :
  use_local_model a = true ->
  pipe E = None ->
  snd (respond_lookup E a w) = Returned recs ->
  respond_step E (Created a) w
  = (inc_world Failed (fst (respond_lookup E a w)),
     Yield (show a (header_of a recs +++ NOT_CONFIGURED)),
     FinalYield)
  /\ snapshots (run E (Resume :: events) (Created a) w)
     = [show a (header_of a recs +++ NOT_CONFIGURED)]
  /\ snapshot_response (show a (header_of a recs +++ NOT_CONFIGURED))
     = header_of a recs +++ NOT_CONFIGURED
  /\ failed (end_world (run E (Resume :: events) (Created a) w))
     = S (failed (fst (respond_lookup E a w)))
  /\ calls (end_world (run E (Resume :: events) (Created a) w))
     = calls (fst (respond_lookup E a w))
  /\ ended (end_gen (run E (Resume :: events) (Created a) w)).
Proof.
  intros Hu Hp Hl.
  assert (Hend : ended FinalYield) by now left.
  cbn [run respond_step].
  rewrite (respond_enter_name_error E a w recs Hl Hu Hp).
  destruct (run_ended E events FinalYield
              (inc_world Failed (fst (respond_lookup E a w))) Hend)
    as (Hs & Hm & Hc & He).
  cbn [snapshots end_world end_gen]. rewrite Hs. unfold failed. rewrite Hm, Hc.
  repeat split; try assumption.
  apply snapshot_response_snapshot.
Qed.

Lemma unconfigured_local_model_witness :
  map snapshot_response
    (snapshots (run demo_env [Resume; CancelClick; Resume; Resume]
                  (Created local_args) initial_world))
  = [header_of local_args
       ("Stay by Zedd" +++ nl +++ "Perfect by Ed Sheeran" +++ nl
        +++ "Stay by Zedd" +++ nl +++ "Perfect by Ed Sheeran")
     +++ NOT_CONFIGURED].
Proof.
  exact (f_equal (map snapshot_response)
           (proj1 (proj2 (unconfigured_local_model demo_env local_args initial_world
                            _ [CancelClick; Resume; Resume]
                            eq_refl eq_refl eq_refl)))).
Defined.

(** C8. A call of [spotify_rec] that fails for one of its three reasons
    returns and adds one to the failure counter only; otherwise it returns
    exactly when every recommended track lists an artist, and then adds one
    to the success counter only (a call that raises counts nothing).  A call
    of [respond] adds one to the user-interaction counter in its first step,
    before the lookup, and never again, under every interleaving of its steps
    with Cancel clicks. *)
Theorem counters_once_per_call E :
  (forall t a cid csec w,
     if lookup_fails E t a cid csec then
       (exists text, snd (spotify_rec E t a cid csec w) = Returned text)
       /\ failed (fst (spotify_rec E t a cid csec w)) = S (failed w)
       /\ successful (fst (spotify_rec E t a cid csec w)) = successful w
     else
       match snd (spotify_rec E t a cid csec w) with
       | Returned _ =>
           forallb has_artist (recommended E t a cid csec) = true
           /\ successful (fst (spotify_rec E t a cid csec w)) = S (successful w)
           /\ failed (fst (spotify_rec E t a cid csec w)) = failed w
       | Raised _ =>
           forallb has_artist (recommended E t a cid csec) = false
           /\ successful (fst (spotify_rec E t a cid csec w)) = successful w
           /\ failed (fst (spotify_rec E t a cid csec w)) = failed w
       end)
  /\ (forall t a cid csec,
        lookup_fails E t a cid csec
        = (negb (truthy cid) || negb (truthy csec))
          || is_nil (sp_search E (str cid) (str csec)
                       ("track:" +++ t +++ " artist:" +++ a))
          || is_nil (recommended E t a cid csec))
  /\ (forall a w,
        interactions (entered w) = S (interactions w)
        /\ interactions (fst (fst (respond_step E (Created a) w)))
           = S (interactions w))
  /\ (forall events a w,
        interactions (end_world (run E events (Created a) w))
        = if existsb is_resume events then S (interactions w) else interactions w).
Proof.
  split; [|split; [|split]].
  - intros t a cid csec w. unfold lookup_fails.
    destruct (spotify_rec_path E t a cid csec w) as
      [Hc | Hc Hm | f o Hc Hm Hr | f o Hc Hm Hr Hf | f o Hc Hm Hr Hf].
    + rewrite Hc. simpl. split; [now eexists | split; reflexivity].
    + rewrite Hc, Hm. simpl. split; [now eexists | split; reflexivity].
    + rewrite Hc, Hm, Hr. simpl. split; [now eexists | split; reflexivity].
    + rewrite Hc, Hm. simpl.
      destruct (recommended E t a cid csec) eqn:Hrec; [congruence|]. simpl.
      split; [exact Hf | split; reflexivity].
    + rewrite Hc, Hm. simpl.
      destruct (recommended E t a cid csec) eqn:Hrec; [congruence|]. simpl.
      split; [exact Hf | split; reflexivity].
  - reflexivity.
  - intros a w. split; [reflexivity|].
    exact (proj1 (respond_enter_interactions E a w)).
  - induction events as [|[|] events IH]; intros a w.
    + reflexivity.
    + cbn [run respond_step existsb is_resume orb].
      destruct (respond_enter_interactions E a w) as [Hi Hs].
      destruct (respond_enter E a w) as [[w' signal] g']. simpl in Hi, Hs.
      rewrite <- Hi, <- (run_started E events g' w' Hs). now destruct signal.
    + cbn [run existsb is_resume orb]. exact (IH a (cancel_inference w)).
Qed.

(** C10. [cancel_inference] sets the flag and changes nothing else; calling
    it again, any number of times, gives the same state as calling it once;
    and whatever number of calls precedes a call of [respond], that call
    runs exactly as it would have without them. *)
Theorem cancel_inference_idempotent w :
  stop_inference (cancel_inference w) = true
  /\ metrics (cancel_inference w) = metrics w
  /\ calls (cancel_inference w) = calls w
  /\ cancel_inference (cancel_inference w) = cancel_inference w
  /\ (forall n, Nat.iter (S n) cancel_inference w = cancel_inference w)
  /\ (forall n E a events,
        run E (Resume :: events) (Created a) (Nat.iter n cancel_inference w)
        = run E (Resume :: events) (Created a) w).
Proof.
  split; [|split; [|split; [|split; [|split]]]]; try reflexivity.
  - induction n as [|n IH]; [reflexivity|].
    change (Nat.iter (S (S n)) cancel_inference w)
      with (cancel_inference (Nat.iter (S n) cancel_inference w)).
    now rewrite IH.
  - intros n E a events.
    assert (H : set_stop_inference false (Nat.iter n cancel_inference w)
                = set_stop_inference false w).
    { induction n as [|n IH]; [reflexivity|].
      rewrite <- IH. reflexivity. }
    cbn [run respond_step]. unfold respond_enter. now rewrite H.
Qed.

(** ** Further properties of the lookup *)

(** X1. With both credentials present and an empty search result,
    [spotify_rec] returns the no-tracks text and counts one failure; it has
    built the client and sent the search, and it sends no recommendation
    request. *)
Theorem no_match_reports_failure E t a cid csec w :
  truthy cid = true ->
  truthy csec = true ->
  sp_search E (str cid) (str csec) ("track:" +++ t +++ " artist:" +++ a) = [] ->
  snd (spotify_rec E t a cid csec w)
  = Returned "No tracks found for the given track name and artist."
  /\ failed (fst (spotify_rec E t a cid csec w)) = S (failed w)
  /\ successful (fst (spotify_rec E t a cid csec w)) = successful w
  /\ processed (fst (spotify_rec E t a cid csec w)) = processed w
  /\ calls (fst (spotify_rec E t a cid csec w))
     = calls w ++ [SpotifyClient (str cid) (str csec);
                   Search ("track:" +++ t +++ " artist:" +++ a)].
Proof.
  intros Hid Hsec Hs.
  assert (Hc : missing_credentials cid csec = false)
    by (unfold missing_credentials; rewrite Hid, Hsec; reflexivity).
  rewrite (spotify_rec_no_match E t a cid csec w Hc Hs).
  repeat split. simpl. now rewrite <- app_assoc.
Qed.

Lemma no_match_reports_failure_witness :
  snd (spotify_rec no_match_env "Shape of You" "Ed Sheeran" (Some "id")
         (Some "secret") initial_world)
  = Returned "No tracks found for the given track name and artist."
  /\ calls (fst (spotify_rec no_match_env "Shape of You" "Ed Sheeran" (Some "id")
                   (Some "secret") initial_world))
     = [SpotifyClient "id" "secret"; Search "track:Shape of You artist:Ed Sheeran"].
Proof.
  destruct (no_match_reports_failure no_match_env "Shape of You" "Ed Sheeran"
              (Some "id") (Some "secret") initial_world eq_refl eq_refl eq_refl)
    as (Hr & _ & _ & _ & Hcalls).
  split; [exact Hr | exact Hcalls].
Defined.

(** X2. With a track match and an empty recommendation list, [spotify_rec]
    returns the no-recommendations text and counts one failure; the
    recommendation request was seeded with the URI of the first match
    only. *)
Theorem no_recommendations_reports_failure E t a cid csec w first others :
  truthy cid = true ->
  truthy csec = true ->
  sp_search E (str cid) (str csec) ("track:" +++ t +++ " artist:" +++ a)
  = first :: others ->
  sp_recommendations E (str cid) (str csec) [uri first] = [] ->
  snd (spotify_rec E t a cid csec w) = Returned "No recommendations found."
  /\ failed (fst (spotify_rec E t a cid csec w)) = S (failed w)
  /\ successful (fst (spotify_rec E t a cid csec w)) = successful w
  /\ processed (fst (spotify_rec E t a cid csec w)) = processed w
  /\ calls (fst (spotify_rec E t a cid csec w))
     = calls w ++ [SpotifyClient (str cid) (str csec);
                   Search ("track:" +++ t +++ " artist:" +++ a);
                   Recommendations [uri first]].
Proof.
  intros Hid Hsec Hs Hr.
  assert (Hc : missing_credentials cid csec = false)
    by (unfold missing_credentials; rewrite Hid, Hsec; reflexivity).
  assert (Hrec : recommended E t a cid csec = []).
  { unfold recommended, matches, search_query. rewrite Hs. exact Hr. }
  rewrite (spotify_rec_no_recommendations E t a cid csec w first others Hc Hs Hrec).
  repeat split. simpl. now rewrite <- !app_assoc.
Qed.

Lemma no_recommendations_reports_failure_witness :
  snd (spotify_rec no_recommendations_env "Shape of You" "Ed Sheeran" (Some "id")
         (Some "secret") initial_world)
  = Returned "No recommendations found."
  /\ calls (fst (spotify_rec no_recommendations_env "Shape of You" "Ed Sheeran"
                   (Some "id") (Some "secret") initial_world))
     = [SpotifyClient "id" "secret"; Search "track:Shape of You artist:Ed Sheeran";
        Recommendations ["spotify:track:seed"]].
Proof.
  destruct (no_recommendations_reports_failure no_recommendations_env
              "Shape of You" "Ed Sheeran" (Some "id") (Some "secret") initial_world
              seed [perfect] eq_refl eq_refl eq_refl eq_refl)
    as (Hr & _ & _ & _ & Hcalls).
  split; [exact Hr | exact Hcalls].
Defined.

(** X3. When some recommended track lists no artist, [spotify_rec] raises
    [IndexError] after its three outgoing calls and before it touches a
    counter: neither a success nor a failure is counted. *)
Theorem track_without_artist_raises E t a cid csec w first others recs bad :
  truthy cid = true ->
  truthy csec = true ->
  sp_search E (str cid) (str csec) ("track:" +++ t +++ " artist:" +++ a)
  = first :: others ->
  sp_recommendations E (str cid) (str csec) [uri first] = recs ->
  In bad recs ->
  artists bad = [] ->
  snd (spotify_rec E t a cid csec w) = Raised IndexError
  /\ metrics (fst (spotify_rec E t a cid csec w)) = metrics w
  /\ calls (fst (spotify_rec E t a cid csec w))
     = calls w ++ [SpotifyClient (str cid) (str csec);
                   Search ("track:" +++ t +++ " artist:" +++ a);
                   Recommendations [uri first]].
Proof.
  intros Hid Hsec Hs Hr Hin Hbad.
  assert (Hc : missing_credentials cid csec = false)
    by (unfold missing_credentials; rewrite Hid, Hsec; reflexivity).
  assert (Hrec : recommended E t a cid csec = recs).
  { unfold recommended, matches, search_query. rewrite Hs. exact Hr. }
  assert (Hne : recommended E t a cid csec <> []).
  { rewrite Hrec. intros ->. contradiction. }
  assert (Hf : forallb has_artist recs = false).
  { destruct (forallb has_artist recs) eqn:Hall; [|reflexivity].
    rewrite forallb_forall in Hall. specialize (Hall bad Hin).
    unfold has_artist in Hall. rewrite Hbad in Hall. discriminate. }
  rewrite (spotify_rec_recommends E t a cid csec w first others Hc Hs Hne).
  cbv zeta. rewrite Hrec, (comprehension_raises _ Hf).
  repeat split. simpl. now rewrite <- !app_assoc.
Qed.

Lemma track_without_artist_raises_witness :
  snd (spotify_rec no_artist_env "Shape of You" "Ed Sheeran" (Some "id")
         (Some "secret") initial_world) = Raised IndexError
  /\ metrics (fst (spotify_rec no_artist_env "Shape of You" "Ed Sheeran" (Some "id")
                     (Some "secret") initial_world)) = metrics initial_world.
Proof.
  destruct (track_without_artist_raises no_artist_env "Shape of You" "Ed Sheeran"
              (Some "id") (Some "secret") initial_world seed [] _
              {| uri := "spotify:track:3"; name := "Untitled"; artists := [] |}
              eq_refl eq_refl eq_refl eq_refl (or_intror (or_introl eq_refl)) eq_refl)
    as (Hr & Hm & _).
  split; [exact Hr | exact Hm].
Defined.

(** X4. Only the first match of the search is used: two providers whose
    search results start with the same track and that recommend the same
    tracks for it make [spotify_rec] end in the same world with the same
    result, whatever else they would answer. *)
Theorem only_first_match_matters E E' t a cid csec w first others others' :
  sp_search E (str cid) (str csec) ("track:" +++ t +++ " artist:" +++ a)
  = first :: others ->
  sp_search E' (str cid) (str csec) ("track:" +++ t +++ " artist:" +++ a)
  = first :: others' ->
  sp_recommendations E (str cid) (str csec) [uri first]
  = sp_recommendations E' (str cid) (str csec) [uri first] ->
  spotify_rec E t a cid csec w = spotify_rec E' t a cid csec w.
Proof.
  intros Hs Hs' Hr.
  destruct (missing_credentials cid csec) eqn:Hc.
  - now rewrite !spotify_rec_no_credentials.
  - assert (Hrec : recommended E t a cid csec = recommended E' t a cid csec).
    { unfold recommended, matches, search_query. rewrite Hs, Hs'. exact Hr. }
    destruct (recommended E t a cid csec) as [|r rs] eqn:Hrs.
    + rewrite (spotify_rec_no_recommendations E t a cid csec w first others Hc Hs Hrs).
      symmetry in Hrec.
      now rewrite (spotify_rec_no_recommendations E' t a cid csec w first others'
                     Hc Hs' Hrec).
    + rewrite (spotify_rec_recommends E t a cid csec w first others Hc Hs)
        by (rewrite Hrs; discriminate).
      rewrite (spotify_rec_recommends E' t a cid csec w first others' Hc Hs')
        by (rewrite <- Hrec; discriminate).
      now rewrite <- Hrec, Hrs.
Qed.

Lemma only_first_match_matters_witness :
  spotify_rec demo_env "Shape of You" "Ed Sheeran" (Some "id") (Some "secret")
    initial_world
  = spotify_rec many_matches_env "Shape of You" "Ed Sheeran" (Some "id")
      (Some "secret") initial_world.
Proof.
  exact (only_first_match_matters demo_env many_matches_env "Shape of You"
           "Ed Sheeran" (Some "id") (Some "secret") initial_world seed []
           [perfect; stay] eq_refl eq_refl eq_refl).
Defined.

(** ** Whole streams *)

Lemma api_chunk_step E t a h r w message_chunk rest :
  stop_inference w = false ->
  has_choice message_chunk = true ->
  respond_step E (ApiLoop t a h r (message_chunk :: rest)) w
  = (w, Yield (snapshot h t a (r +++ api_text message_chunk)),
     ApiLoop t a h (r +++ api_text message_chunk) rest).
Proof.
  intros Hstop Hc. simpl. unfold api_chunk, api_text, api_token, has_choice in *.
  rewrite Hstop. destruct (choices message_chunk) as [|c cs]; [discriminate|].
  simpl. destruct (delta_content (delta c)) as [[|x s]|]; simpl;
    rewrite ?append_empty_r; reflexivity.
Qed.

Lemma local_chunk_step E t a h r w output rest :
  stop_inference w = false ->
  has_message output = true ->
  respond_step E (LocalLoop t a h r (output :: rest)) w
  = (w, Yield (snapshot h t a (r +++ local_text output)),
     LocalLoop t a h (r +++ local_text output) rest).
Proof.
  intros Hstop Hm. simpl. unfold local_chunk, local_text, local_token, has_message in *.
  rewrite Hstop.
  destruct (generated_text output) as [|m ms]; [discriminate|].
  destruct (last_item (m :: ms)) as [x|e] eqn:Hl; [reflexivity|].
  exfalso. clear Hm. revert m Hl. induction ms as [|y ms IH]; intros m Hl.
  - discriminate.
  - apply (IH y). exact Hl.
Qed.

Lemma respond_step_exhausted E g w :
  started g -> remaining g = 0 ->
  respond_step E g w = (w, StopIteration, Closed).
Proof.
  destruct g as [a | t a h r [|output rest] | t a h r [|chunk rest] | |];
    simpl; intros Hs Hr; try contradiction; try discriminate; reflexivity.
Qed.

(** With no chunk left nothing is yielded any more, and only the flag can
    still change. *)
Lemma run_exhausted E events g w :
  started g -> remaining g = 0 ->
  snapshots (run E events g w) = []
  /\ metrics (end_world (run E events g w)) = metrics w
  /\ calls (end_world (run E events g w)) = calls w.
Proof.
  revert w. induction events as [|[|] events IH]; intros w Hs Hr; simpl.
  - repeat split.
  - rewrite (respond_step_exhausted E g w Hs Hr).
    destruct (run_ended E events Closed w (or_intror eq_refl)) as (H1 & H2 & H3 & _).
    repeat split; assumption.
  - exact (IH (cancel_inference w) Hs Hr).
Qed.

(** Steps over a well-formed part of the API stream while the flag is not
    set: one snapshot per chunk, the rest of the run continues from the
    response grown by all their texts. *)
Lemma run_api_chunks E t a h w events post pre :
  stop_inference w = false ->
  forallb has_choice pre = true ->
  forall r,
    snapshots (run E (resumes (length pre) ++ events) (ApiLoop t a h r (pre ++ post)) w)
    = map (snapshot h t a) (responses_from r (map api_text pre))
      ++ snapshots (run E events
                      (ApiLoop t a h (response_after r (map api_text pre)) post) w)
    /\ end_world (run E (resumes (length pre) ++ events)
                    (ApiLoop t a h r (pre ++ post)) w)
       = end_world (run E events
                      (ApiLoop t a h (response_after r (map api_text pre)) post) w)
    /\ end_gen (run E (resumes (length pre) ++ events)
                  (ApiLoop t a h r (pre ++ post)) w)
       = end_gen (run E events
                    (ApiLoop t a h (response_after r (map api_text pre)) post) w).
Proof.
  intros Hstop. induction pre as [|c pre IH]; intros Hall r.
  - simpl. repeat split.
  - simpl in Hall. apply andb_true_iff in Hall. destruct Hall as [Hc Hall].
    change (resumes (length (c :: pre)) ++ events)
      with (Resume :: resumes (length pre) ++ events).
    change ((c :: pre) ++ post) with (c :: pre ++ post).
    cbn [run]. rewrite (api_chunk_step E t a h r w c (pre ++ post) Hstop Hc).
    destruct (IH Hall (r +++ api_text c)) as (H1 & H2 & H3).
    cbn [snapshots end_world end_gen]. rewrite H1, H2, H3. repeat split.
Qed.

Lemma run_local_chunks E t a h w events post pre :
  stop_inference w = false ->
  forallb has_message pre = true ->
  forall r,
    snapshots (run E (resumes (length pre) ++ events) (LocalLoop t a h r (pre ++ post)) w)
    = map (snapshot h t a) (responses_from r (map local_text pre))
      ++ snapshots (run E events
                      (LocalLoop t a h (response_after r (map local_text pre)) post) w)
    /\ end_world (run E (resumes (length pre) ++ events)
                    (LocalLoop t a h r (pre ++ post)) w)
       = end_world (run E events
                      (LocalLoop t a h (response_after r (map local_text pre)) post) w)
    /\ end_gen (run E (resumes (length pre) ++ events)
                  (LocalLoop t a h r (pre ++ post)) w)
       = end_gen (run E events
                    (LocalLoop t a h (response_after r (map local_text pre)) post) w).
Proof.
  intros Hstop. induction pre as [|c pre IH]; intros Hall r.
  - simpl. repeat split.
  - simpl in Hall. apply andb_true_iff in Hall. destruct Hall as [Hc Hall].
    change (resumes (length (c :: pre)) ++ events)
      with (Resume :: resumes (length pre) ++ events).
    change ((c :: pre) ++ post) with (c :: pre ++ post).
    cbn [run]. rewrite (local_chunk_step E t a h r w c (pre ++ post) Hstop Hc).
    destruct (IH Hall (r +++ local_text c)) as (H1 & H2 & H3).
    cbn [snapshots end_world end_gen]. rewrite H1, H2, H3. repeat split.
Qed.

(** X5. A stream that is never cancelled is shown chunk by chunk: with the
    flag not set and every chunk carrying a token position, as many steps as
    there are chunks yield one snapshot per chunk, the k-th showing the
    starting response followed by the texts of the first k chunks; after
    that nothing is yielded whatever happens, and no counter has moved.
    This holds for the API stream and for the local one. *)
Theorem uncancelled_stream_is_shown_in_full E t a h r w events :
  stop_inference w = false ->
  (forall chunks,
     forallb has_choice chunks = true ->
     snapshots (run E (resumes (length chunks) ++ events) (ApiLoop t a h r chunks) w)
     = map (snapshot h t a) (responses_from r (map api_text chunks))
     /\ metrics (end_world (run E (resumes (length chunks) ++ events)
                              (ApiLoop t a h r chunks) w)) = metrics w)
  /\ (forall outputs,
        forallb has_message outputs = true ->
        snapshots (run E (resumes (length outputs) ++ events)
                     (LocalLoop t a h r outputs) w)
        = map (snapshot h t a) (responses_from r (map local_text outputs))
        /\ metrics (end_world (run E (resumes (length outputs) ++ events)
                                 (LocalLoop t a h r outputs) w)) = metrics w).
Proof.
  intros Hstop. split.
  - intros chunks Hall.
    destruct (run_api_chunks E t a h w events [] chunks Hstop Hall r) as (H1 & H2 & _).
    rewrite app_nil_r in H1, H2. rewrite H1, H2.
    destruct (run_exhausted E events
                (ApiLoop t a h (response_after r (map api_text chunks)) []) w I eq_refl)
      as (Hs & Hm & _).
    rewrite Hs, Hm, app_nil_r. split; reflexivity.
  - intros outputs Hall.
    destruct (run_local_chunks E t a h w events [] outputs Hstop Hall r)
      as (H1 & H2 & _).
    rewrite app_nil_r in H1, H2. rewrite H1, H2.
    destruct (run_exhausted E events
                (LocalLoop t a h (response_after r (map local_text outputs)) []) w
                I eq_refl)
      as (Hs & Hm & _).
    rewrite Hs, Hm, app_nil_r. split; reflexivity.
Qed.

Lemma uncancelled_stream_is_shown_in_full_witness :
  map snapshot_response
    (snapshots
       (run demo_env [Resume; Resume; Resume; CancelClick; Resume]
          (ApiLoop "Shape of You" "Ed Sheeran" [] "Header. "
             [text_chunk (Some "Great"); text_chunk None; text_chunk (Some " picks")])
          initial_world))
  = ["Header. Great"; "Header. Great"; "Header. Great picks"]
  /\ map snapshot_response
       (snapshots
          (run local_env [Resume; Resume]
             (LocalLoop "Shape of You" "Ed Sheeran" [] "Header. "
                [generated "Lovely songs."]) initial_world))
     = ["Header. Lovely songs."].
Proof.
  split.
  - exact (f_equal (map snapshot_response)
             (proj1 (proj1 (uncancelled_stream_is_shown_in_full demo_env "Shape of You"
                              "Ed Sheeran" [] "Header. " initial_world
                              [CancelClick; Resume] eq_refl)
                       [text_chunk (Some "Great"); text_chunk None;
                        text_chunk (Some " picks")] eq_refl))).
  - exact (f_equal (map snapshot_response)
             (proj1 (proj2 (uncancelled_stream_is_shown_in_full local_env "Shape of You"
                              "Ed Sheeran" [] "Header. " initial_world [Resume] eq_refl)
                       [generated "Lovely songs."] eq_refl))).
Defined.

(** X6. A click after k chunks: with the flag not set at first, k steps over
    well-formed chunks, then a Cancel click, then a step while a further
    chunk is there, yield the k snapshots of those chunks and then one last
    snapshot, the response reached so far followed by the cancellation
    marker; the further chunk and all chunks behind it are dropped, and the
    cancellation counter is one higher.  This holds for both streams. *)
Theorem click_after_some_chunks E t a h r w events :
  stop_inference w = false ->
  (forall pre next post,
     forallb has_choice pre = true ->
     snapshots (run E (resumes (length pre) ++ CancelClick :: Resume :: events)
                  (ApiLoop t a h r (pre ++ next :: post)) w)
     = map (snapshot h t a) (responses_from r (map api_text pre))
       ++ [snapshot h t a (response_after r (map api_text pre) +++ CANCEL_MARKER)]
     /\ cancelled (end_world
                     (run E (resumes (length pre) ++ CancelClick :: Resume :: events)
                        (ApiLoop t a h r (pre ++ next :: post)) w))
        = S (cancelled w))
  /\ (forall pre next post,
        forallb has_message pre = true ->
        snapshots (run E (resumes (length pre) ++ CancelClick :: Resume :: events)
                     (LocalLoop t a h r (pre ++ next :: post)) w)
        = map (snapshot h t a) (responses_from r (map local_text pre))
          ++ [snapshot h t a (response_after r (map local_text pre) +++ CANCEL_MARKER)]
        /\ cancelled (end_world
                        (run E (resumes (length pre) ++ CancelClick :: Resume :: events)
                           (LocalLoop t a h r (pre ++ next :: post)) w))
           = S (cancelled w)).
Proof.
  intros Hstop. split.
  - intros pre next post Hall.
    destruct (run_api_chunks E t a h w (CancelClick :: Resume :: events)
                (next :: post) pre Hstop Hall r) as (H1 & H2 & _).
    rewrite H1, H2. cbn [run respond_step]. unfold api_chunk.
    cbn [cancel_inference set_stop_inference stop_inference].
    destruct (run_ended E events FinalYield
                (inc_world Cancelled (cancel_inference w)) (or_introl eq_refl))
      as (Hs & Hm & _).
    cbn [snapshots end_world]. unfold cancelled. rewrite Hs, Hm.
    split; reflexivity.
  - intros pre next post Hall.
    destruct (run_local_chunks E t a h w (CancelClick :: Resume :: events)
                (next :: post) pre Hstop Hall r) as (H1 & H2 & _).
    rewrite H1, H2. cbn [run respond_step]. unfold local_chunk.
    cbn [cancel_inference set_stop_inference stop_inference].
    destruct (run_ended E events FinalYield
                (inc_world Cancelled (cancel_inference w)) (or_introl eq_refl))
      as (Hs & Hm & _).
    cbn [snapshots end_world]. unfold cancelled. rewrite Hs, Hm.
    split; reflexivity.
Qed.

Lemma click_after_some_chunks_witness :
  map snapshot_response
    (snapshots
       (run demo_env [Resume; Resume; CancelClick; Resume; Resume]
          (ApiLoop "Shape of You" "Ed Sheeran" [] "Header. "
             [text_chunk (Some "Great"); text_chunk None; text_chunk (Some " picks")])
          initial_world))
  = ["Header. Great"; "Header. Great"; "Header. Great" +++ CANCEL_MARKER].
Proof.
  exact (f_equal (map snapshot_response)
           (proj1 (proj1 (click_after_some_chunks demo_env "Shape of You" "Ed Sheeran"
                            [] "Header. " initial_world [Resume] eq_refl)
                     [text_chunk (Some "Great"); text_chunk None]
                     (text_chunk (Some " picks")) [] eq_refl))).
Defined.

(** ** The call after its first step *)

(** A step after the entry either leaves the world alone and uses up what
    it yields from the stream, or it is the cancellation step. *)
Lemma respond_step_after_entry E g w :
  started g ->
  started (snd (respond_step E g w))
  /\ ((fst (fst (respond_step E g w)) = w
       /\ remaining (snd (respond_step E g w)) + yields (snd (fst (respond_step E g w)))
          <= remaining g)
      \/ (fst (fst (respond_step E g w)) = inc_world Cancelled w
          /\ ended (snd (respond_step E g w))
          /\ yields (snd (fst (respond_step E g w))) = 1
          /\ 0 < remaining g
          /\ stop_inference w = true)).
Proof.
  destruct g as [a | t a h r [|output rest] | t a h r [|chunk rest] | |];
    simpl; intros Hs; try contradiction;
    try (split; [exact I | left; split; [reflexivity | simpl; lia]]).
  - unfold local_chunk. destruct (stop_inference w) eqn:Hstop.
    + split; [exact I | right]. simpl. repeat split; try lia. now left.
    + destruct (local_token output); simpl;
        (split; [exact I | left; split; [reflexivity | simpl; lia]]).
  - unfold api_chunk. destruct (stop_inference w) eqn:Hstop.
    + split; [exact I | right]. simpl. repeat split; try lia. now left.
    + destruct (api_token chunk); simpl;
        (split; [exact I | left; split; [reflexivity | simpl; lia]]).
Qed.

Lemma run_after_entry E events g w :
  started g ->
  length (snapshots (run E events g w)) <= remaining g
  /\ calls (end_world (run E events g w)) = calls w
  /\ (metrics (end_world (run E events g w)) = metrics w
      \/ metrics (end_world (run E events g w)) = inc_metrics Cancelled (metrics w))
  /\ (stop_inference w = true -> stop_inference (end_world (run E events g w)) = true).
Proof.
  revert g w. induction events as [|[|] events IH]; intros g w Hg.
  - simpl. repeat split; [lia | now left | auto].
  - cbn [run].
    destruct (respond_step_after_entry E g w Hg) as
      [Hs [[Hw Hr] | (Hw & He & Hy & Hpos & Hstop)]];
      destruct (respond_step E g w) as [[w' signal] g'];
      cbn [fst snd] in *; subst w'.
    + destruct (IH g' w Hs) as (Hl & Hc & Hm & Hf).
      destruct signal; cbn [snapshots end_world yields length] in *;
        repeat split; try assumption; lia.
    + destruct (run_ended E events g' (inc_world Cancelled w) He)
        as (Hsn & Hm & Hc & _).
      destruct (IH g' (inc_world Cancelled w) Hs) as (_ & _ & _ & Hf).
      destruct signal; try discriminate.
      cbn [snapshots end_world length]. rewrite Hsn, Hm, Hc.
      repeat split; [simpl; lia | now right | exact Hf].
  - cbn [run]. destruct (IH g (cancel_inference w) Hg) as (Hl & Hc & Hm & Hf).
    repeat split; try assumption. intros _. now apply Hf.
Qed.

(** The entry always leaves the flag cleared and the cancellation counter
    as it was. *)
Lemma respond_enter_clears E a w :
  stop_inference (fst (fst (respond_enter E a w))) = false
  /\ cancelled (fst (fst (respond_enter E a w))) = cancelled w.
Proof.
  pose proof (spotify_rec_frame E (track_name a) (artist a) (client_id a)
                (client_secret a) (entered w)) as (Hf & _ & Hc).
  fold (respond_lookup E a w) in Hf, Hc.
  destruct (snd (respond_lookup E a w)) as [recs|e] eqn:Hl.
  - destruct (use_local_model a) eqn:Hu.
    + destruct (pipe E) as [p|] eqn:Hp.
      * rewrite (respond_enter_local E a w recs p Hl Hu Hp). simpl.
        split; [exact Hf | exact Hc].
      * rewrite (respond_enter_name_error E a w recs Hl Hu Hp). simpl.
        split; [exact Hf | exact Hc].
    + rewrite (respond_enter_api E a w recs Hl Hu). simpl.
      split; [exact Hf | exact Hc].
  - rewrite (respond_enter_raises E a w e Hl). simpl. split; [exact Hf | exact Hc].
Qed.

(** X7. From any point of either loop and under any interleaving of steps
    and Cancel clicks, the snapshots still to come are at most as many as
    the chunks not yet looked at: a chunk is never shown twice, and the
    cancellation snapshot takes the place of a chunk. *)
Theorem no_more_snapshots_than_chunks E events t a h r :
  (forall chunks w,
     length (snapshots (run E events (ApiLoop t a h r chunks) w)) <= length chunks)
  /\ (forall outputs w,
        length (snapshots (run E events (LocalLoop t a h r outputs) w))
        <= length outputs).
Proof.
  split.
  - intros chunks w.
    exact (proj1 (run_after_entry E events (ApiLoop t a h r chunks) w I)).
  - intros outputs w.
    exact (proj1 (run_after_entry E events (LocalLoop t a h r outputs) w I)).
Qed.

(** X8. After its first step a call makes no outgoing call and counts no
    success, failure or interaction any more, whatever the interleaving: all
    of that is settled before streaming starts.  Over the whole call the
    cancellation counter rises by at most one. *)
Theorem streaming_only_counts_cancellation E a w events :
  calls (end_world (run E (Resume :: events) (Created a) w))
  = calls (fst (fst (respond_step E (Created a) w)))
  /\ processed (end_world (run E (Resume :: events) (Created a) w))
     = processed (fst (fst (respond_step E (Created a) w)))
  /\ successful (end_world (run E (Resume :: events) (Created a) w))
     = successful (fst (fst (respond_step E (Created a) w)))
  /\ failed (end_world (run E (Resume :: events) (Created a) w))
     = failed (fst (fst (respond_step E (Created a) w)))
  /\ cancelled w <= cancelled (end_world (run E (Resume :: events) (Created a) w))
     <= S (cancelled w).
Proof.
  cbn [run respond_step].
  destruct (respond_enter_interactions E a w) as [_ Hs].
  destruct (respond_enter_clears E a w) as [_ Hc].
  destruct (respond_enter E a w) as [[w' signal] g']. cbn [fst snd] in *.
  destruct (run_after_entry E events g' w' Hs) as (_ & Hcalls & Hm & _).
  assert (H : calls (end_world (run E events g' w')) = calls w'
              /\ processed (end_world (run E events g' w')) = processed w'
              /\ successful (end_world (run E events g' w')) = successful w'
              /\ failed (end_world (run E events g' w')) = failed w'
              /\ cancelled w <= cancelled (end_world (run E events g' w'))
                 <= S (cancelled w)).
  { unfold processed, successful, failed, cancelled in *.
    destruct Hm as [-> | ->]; simpl; repeat split; try assumption; lia. }
  now destruct signal.
Qed.

Lemma respond_step_frames E g w t a h :
  frames g t a h ->
  frames (snd (respond_step E g w)) t a h
  /\ forall s, snd (fst (respond_step E g w)) = Yield s ->
               exists r, s = snapshot h t a r.
Proof.
  destruct g as [b | t' a' h' r [|output rest] | t' a' h' r [|chunk rest] | |];
    simpl; intros Hg; try contradiction;
    try (split; [exact I | discriminate]);
    destruct Hg as (-> & -> & ->).
  - unfold local_chunk. destruct (stop_inference w).
    + split; [exact I|]. intros s [= <-]. now eexists.
    + destruct (local_token output); simpl.
      * split; [repeat split|]. intros s [= <-]. now eexists.
      * split; [exact I | discriminate].
  - unfold api_chunk. destruct (stop_inference w).
    + split; [exact I|]. intros s [= <-]. now eexists.
    + destruct (api_token chunk); simpl.
      * split; [repeat split|]. intros s [= <-]. now eexists.
      * split; [exact I | discriminate].
Qed.

Lemma run_frames E events g w t a h :
  frames g t a h ->
  Forall (fun s => exists r, s = snapshot h t a r) (snapshots (run E events g w)).
Proof.
  revert g w. induction events as [|[|] events IH]; intros g w Hg; cbn [run].
  - constructor.
  - destruct (respond_step_frames E g w t a h Hg) as [Hf Hy].
    destruct (respond_step E g w) as [[w' signal] g']. cbn [fst snd] in *.
    specialize (IH g' w' Hf).
    destruct signal as [s| | |]; cbn [snapshots]; try exact IH.
    constructor; [now apply Hy | exact IH].
  - exact (IH g (cancel_inference w) Hg).
Qed.

(** X9. Every snapshot of a call is the history that was passed in, intact
    and in order, followed by exactly one pair: the label made of the seed
    track, " by " and the seed artist, and a response text. *)
Theorem snapshots_extend_history E events a w :
  Forall (fun s =>
            exists r,
              s = history_of a
                  ++ [(Some (track_name a +++ " by " +++ artist a), Some r)])
    (snapshots (run E events (Created a) w))
  /\ Forall (fun s => length s = S (length (history_of a))
                      /\ firstn (length (history_of a)) s = history_of a)
       (snapshots (run E events (Created a) w)).
Proof.
  assert (H : Forall (fun s => exists r, s = show a r)
                (snapshots (run E events (Created a) w))).
  { revert w. induction events as [|[|] events IH]; intros w; cbn [run].
    - constructor.
    - cbn [respond_step].
      assert (Hf : frames (snd (respond_enter E a w)) (track_name a) (artist a)
                     (history_of a)
                   /\ forall s, snd (fst (respond_enter E a w)) = Yield s ->
                                exists r, s = show a r).
      { destruct (snd (respond_lookup E a w)) as [recs|e] eqn:Hl.
        - destruct (use_local_model a) eqn:Hu.
          + destruct (pipe E) as [p|] eqn:Hp.
            * rewrite (respond_enter_local E a w recs p Hl Hu Hp). simpl.
              split; [repeat split | discriminate].
            * rewrite (respond_enter_name_error E a w recs Hl Hu Hp). simpl.
              split; [exact I|]. intros s [= <-]. now eexists.
          + rewrite (respond_enter_api E a w recs Hl Hu). simpl.
            split; [repeat split | discriminate].
        - rewrite (respond_enter_raises E a w e Hl). simpl.
          split; [exact I | discriminate]. }
      destruct Hf as [Hf Hy].
      destruct (respond_enter E a w) as [[w' signal] g']. cbn [fst snd] in *.
      pose proof (run_frames E events g' w' _ _ _ Hf) as Hr.
      destruct signal as [s| | |]; cbn [snapshots]; try exact Hr.
      constructor; [now apply Hy | exact Hr].
    - exact (IH (cancel_inference w)). }
  split.
  - exact H.
  - eapply Forall_impl; [|exact H]. intros s [r ->]. unfold show, snapshot.
    split.
    + rewrite length_app. simpl. lia.
    + generalize (history_of a) as l. induction l as [|x l IH];
        [reflexivity | cbn [length app firstn]; f_equal; exact IH].
Qed.

(** X10. A missing credential does not stop the call: when the API backend
    is selected, the first step still sends the messages to it, with the
    credentials notice in the place of the recommendations both in the final
    user message and in the response header; one failure is counted and no
    Spotify call is made. *)
Theorem missing_credentials_still_generate E a w :
  absent_or_empty (client_id a) \/ absent_or_empty (client_secret a) ->
  use_local_model a = false ->
  snd (respond_step E (Created a) w)
  = ApiLoop (track_name a) (artist a) (history_of a)
      (response_header (track_name a) (artist a)
         "Please provide Spotify API credentials.")
      (chat_completion E
         (build_messages (system_message a) (history_of a) (track_name a) (artist a)
            "Please provide Spotify API credentials.")
         (max_tokens a))
  /\ snd (fst (respond_step E (Created a) w)) = Running
  /\ calls (fst (fst (respond_step E (Created a) w)))
     = calls w
       ++ [ChatCompletion
             (build_messages (system_message a) (history_of a) (track_name a)
                (artist a) "Please provide Spotify API credentials.")
             (max_tokens a)]
  /\ failed (fst (fst (respond_step E (Created a) w))) = S (failed w).
Proof.
  intros Hcred Hu.
  assert (Hc : missing_credentials (client_id a) (client_secret a) = true).
  { unfold missing_credentials.
    destruct Hcred as [H | H]; apply absent_or_empty_falsy in H; rewrite H;
      [reflexivity | apply orb_true_r]. }
  assert (Hl : respond_lookup E a w
               = (inc_world Failed (entered w), Returned MSG_CREDENTIALS)).
  { unfold respond_lookup. now apply spotify_rec_no_credentials. }
  cbn [respond_step].
  rewrite (respond_enter_api E a w MSG_CREDENTIALS); [| now rewrite Hl | exact Hu].
  rewrite Hl. repeat split.
Qed.

Lemma missing_credentials_still_generate_witness :
  snd (fst (respond_step demo_env (Created anonymous_args) initial_world)) = Running
  /\ failed (fst (fst (respond_step demo_env (Created anonymous_args) initial_world)))
     = 1.
Proof.
  destruct (missing_credentials_still_generate demo_env anonymous_args initial_world
              (or_introl (or_introl eq_refl)) eq_refl) as (_ & Hs & _ & Hf).
  split; [exact Hs | exact Hf].
Defined.

(** X11. Two failures in one call: with a missing credential, the local
    model selected and [pipe] not bound, the call yields one snapshot, the
    header with the credentials notice followed by the configuration notice,
    counts two failures and makes no outgoing call at all. *)
Theorem two_failures_in_one_call E a w events :
  absent_or_empty (client_id a) \/ absent_or_empty (client_secret a) ->
  use_local_model a = true ->
  pipe E = None ->
  snapshots (run E (Resume :: events) (Created a) w)
  = [history_of a
     ++ [(Some (track_name a +++ " by " +++ artist a),
          Some (response_header (track_name a) (artist a)
                  "Please provide Spotify API credentials."
                +++ NOT_CONFIGURED))]]
  /\ failed (end_world (run E (Resume :: events) (Created a) w)) = S (S (failed w))
  /\ calls (end_world (run E (Resume :: events) (Created a) w)) = calls w.
Proof.
  intros Hcred Hu Hp.
  assert (Hc : missing_credentials (client_id a) (client_secret a) = true).
  { unfold missing_credentials.
    destruct Hcred as [H | H]; apply absent_or_empty_falsy in H; rewrite H;
      [reflexivity | apply orb_true_r]. }
  assert (Hl : respond_lookup E a w
               = (inc_world Failed (entered w), Returned MSG_CREDENTIALS)).
  { unfold respond_lookup. now apply spotify_rec_no_credentials. }
  cbn [run respond_step].
  rewrite (respond_enter_name_error E a w MSG_CREDENTIALS); [| now rewrite Hl | exact Hu | exact Hp].
  rewrite Hl. cbn [fst].
  destruct (run_ended E events FinalYield
              (inc_world Failed (inc_world Failed (entered w))) (or_introl eq_refl))
    as (Hs & Hm & Hcalls & _).
  cbn [snapshots end_world]. unfold failed. rewrite Hs, Hm, Hcalls.
  repeat split.
Qed.

Lemma two_failures_in_one_call_witness :
  failed (end_world (run demo_env [Resume; Resume] (Created anonymous_local_args)
                       initial_world)) = 2
  /\ calls (end_world (run demo_env [Resume; Resume] (Created anonymous_local_args)
                         initial_world)) = [].
Proof.
  destruct (two_failures_in_one_call demo_env anonymous_local_args initial_world
              [Resume] (or_introl (or_introl eq_refl)) eq_refl eq_refl)
    as (_ & Hf & Hc).
  split; [exact Hf | exact Hc].
Defined.

(** ** The shared flag *)

(** X12. The flag belongs to no call: when Cancel is clicked and another
    call of [respond] then takes its first step, the click is lost for a
    call that is already streaming.  Its next chunk is appended and shown as
    if nothing had been clicked, and no cancellation is counted. *)
Theorem new_call_clears_pending_click E b w t a h r message_chunk rest :
  has_choice message_chunk = true ->
  respond_step E (ApiLoop t a h r (message_chunk :: rest))
    (fst (fst (respond_step E (Created b) (cancel_inference w))))
  = (fst (fst (respond_step E (Created b) (cancel_inference w))),
     Yield (snapshot h t a (r +++ api_text message_chunk)),
     ApiLoop t a h (r +++ api_text message_chunk) rest)
  /\ cancelled (fst (fst (respond_step E (Created b) (cancel_inference w))))
     = cancelled w.
Proof.
  intros Hc. cbn [respond_step].
  destruct (respond_enter_clears E b (cancel_inference w)) as [Hf Hk].
  split; [|exact Hk].
  exact (api_chunk_step E t a h r _ message_chunk rest Hf Hc).
Qed.

Lemma new_call_clears_pending_click_witness :
  snd (fst (respond_step demo_env
              (ApiLoop "Shape of You" "Ed Sheeran" [] "So far"
                 [text_chunk (Some " more")])
              (fst (fst (respond_step demo_env (Created anonymous_args)
                           (cancel_inference initial_world))))))
  = Yield [(Some "Shape of You by Ed Sheeran", Some "So far more")].
Proof.
  exact (f_equal (fun x => snd (fst x))
           (proj1 (new_call_clears_pending_click demo_env anonymous_args initial_world
                     "Shape of You" "Ed Sheeran" [] "So far"
                     (text_chunk (Some " more")) [] eq_refl))).
Defined.



(** ** Calls that end with an exception *)

(** X14. When the lookup raises, the call of [respond] ends in its first
    step with that exception: it yields no snapshot under any interleaving,
    calls no generation backend, and has counted the user interaction. *)
Theorem lookup_error_ends_call E a w e events :
  snd (respond_lookup E a w) = Raised e ->
  respond_step E (Created a) w = (fst (respond_lookup E a w), Raise e, Closed)
  /\ snapshots (run E (Resume :: events) (Created a) w) = []
  /\ calls (end_world (run E (Resume :: events) (Created a) w))
     = calls (fst (respond_lookup E a w))
  /\ interactions (end_world (run E (Resume :: events) (Created a) w))
     = S (interactions w).
Proof.
  intros Hl. cbn [run respond_step]. rewrite (respond_enter_raises E a w e Hl).
  destruct (run_ended E events Closed (fst (respond_lookup E a w))
              (or_intror eq_refl)) as (Hs & Hm & Hc & _).
  unfold interactions. rewrite Hs, Hm, Hc. repeat split.
  exact (proj1 (proj2 (spotify_rec_frame E (track_name a) (artist a) (client_id a)
                         (client_secret a) (entered w)))).
Qed.

Lemma lookup_error_ends_call_witness :
  respond_step no_artist_env (Created demo_args) initial_world
  = (fst (respond_lookup no_artist_env demo_args initial_world),
     Raise IndexError, Closed)
  /\ calls (end_world (run no_artist_env [Resume; Resume] (Created demo_args)
                         initial_world))
     = [SpotifyClient "id" "secret"; Search "track:Shape of You artist:Ed Sheeran";
        Recommendations ["spotify:track:seed"]].
Proof.
  destruct (lookup_error_ends_call no_artist_env demo_args initial_world IndexError
              [Resume] eq_refl) as (Hstep & _ & Hc & _).
  split; [exact Hstep | exact Hc].
Defined.

(** X15. The flag is read before the chunk is: a chunk without a first
    choice (or an output without a generated message) ends the stream with
    [IndexError] and without a snapshot when the flag is not set, but is
    never looked at when the flag is set, where the step is the ordinary
    cancellation. *)
Theorem flag_is_read_before_chunk E t a h r w events :
  (stop_inference w = false ->
   (forall rest,
      respond_step E (ApiLoop t a h r ({| choices := [] |} :: rest)) w
      = (w, Raise IndexError, Closed)
      /\ snapshots (run E (Resume :: events)
                      (ApiLoop t a h r ({| choices := [] |} :: rest)) w) = [])
   /\ (forall rest,
         respond_step E (LocalLoop t a h r ({| generated_text := [] |} :: rest)) w
         = (w, Raise IndexError, Closed)
         /\ snapshots (run E (Resume :: events)
                         (LocalLoop t a h r ({| generated_text := [] |} :: rest)) w)
            = []))
  /\ (stop_inference w = true ->
      (forall rest,
         snapshots (run E (Resume :: events)
                      (ApiLoop t a h r ({| choices := [] |} :: rest)) w)
         = [snapshot h t a (r +++ CANCEL_MARKER)])
      /\ (forall rest,
            snapshots (run E (Resume :: events)
                         (LocalLoop t a h r ({| generated_text := [] |} :: rest)) w)
            = [snapshot h t a (r +++ CANCEL_MARKER)])).
Proof.
  split; intros Hstop; split; intros rest; cbn [run respond_step];
    unfold api_chunk, local_chunk; rewrite Hstop; simpl.
  - now rewrite (proj1 (run_ended E events Closed w (or_intror eq_refl))).
  - now rewrite (proj1 (run_ended E events Closed w (or_intror eq_refl))).
  - now rewrite (proj1 (run_ended E events FinalYield (inc_world Cancelled w)
                          (or_introl eq_refl))).
  - now rewrite (proj1 (run_ended E events FinalYield (inc_world Cancelled w)
                          (or_introl eq_refl))).
Qed.

Lemma flag_is_read_before_chunk_witness :
  snapshots (run demo_env [Resume; Resume]
               (ApiLoop "Shape of You" "Ed Sheeran" [] "So far"
                  [{| choices := [] |}; text_chunk (Some " more")]) initial_world)
  = []
  /\ snapshots (run demo_env [Resume; Resume]
                  (ApiLoop "Shape of You" "Ed Sheeran" [] "So far"
                     [{| choices := [] |}; text_chunk (Some " more")])
                  (cancel_inference initial_world))
     = [[(Some "Shape of You by Ed Sheeran", Some ("So far" +++ CANCEL_MARKER))]].
Proof.
  split.
  - exact (proj2 (proj1 (proj1 (flag_is_read_before_chunk demo_env "Shape of You"
                                  "Ed Sheeran" [] "So far" initial_world [Resume])
                           eq_refl) [text_chunk (Some " more")])).
  - exact (proj1 (proj2 (flag_is_read_before_chunk demo_env "Shape of You"
                           "Ed Sheeran" [] "So far" (cancel_inference initial_world)
                           [Resume]) eq_refl) [text_chunk (Some " more")]).
Defined.

(** ** Whole calls and the prompt *)

(** X16. A call through the API that is not cancelled, end to end: when the
    lookup has returned its text and every chunk of the stream carries a
    token position, the first step and one step per chunk yield one snapshot
    per chunk, the k-th showing the header followed by the texts of the
    first k chunks.  No snapshot comes before the first chunk has been
    read, so an empty stream gives no snapshot at all; a flag left set
    before the call does not matter, and no cancellation is counted
    whatever happens afterwards. *)
Theorem whole_call_through_api E a w recs events :
  snd (respond_lookup E a w) = Returned recs ->
  use_local_model a = false ->
  forallb has_choice (chat_completion E (messages_of a recs) (max_tokens a)) = true ->
  snapshots
    (run E (Resume
            :: resumes (length (chat_completion E (messages_of a recs) (max_tokens a)))
            ++ events)
       (Created a) w)
  = map (show a)
      (responses_from (header_of a recs)
         (map api_text (chat_completion E (messages_of a recs) (max_tokens a))))
  /\ cancelled
       (end_world
          (run E (Resume
                  :: resumes (length (chat_completion E (messages_of a recs)
                                        (max_tokens a)))
                  ++ events)
             (Created a) w))
     = cancelled w.
Proof.
  intros Hl Hu Hall.
  destruct (respond_enter_clears E a w) as [Hf Hk].
  cbn [run respond_step].
  rewrite (respond_enter_api E a w recs Hl Hu) in *. cbn [fst snd] in Hf, Hk.
  set (w1 := record_call (ChatCompletion (messages_of a recs) (max_tokens a))
               (fst (respond_lookup E a w))) in *.
  set (chunks := chat_completion E (messages_of a recs) (max_tokens a)) in *.
  destruct (run_api_chunks E (track_name a) (artist a) (history_of a) w1 events []
              chunks Hf Hall (header_of a recs)) as (H1 & H2 & _).
  rewrite app_nil_r in H1, H2. rewrite H1, H2.
  destruct (run_exhausted E events
              (ApiLoop (track_name a) (artist a) (history_of a)
                 (response_after (header_of a recs) (map api_text chunks)) []) w1
              I eq_refl) as (Hs & Hm & _).
  unfold cancelled in *. rewrite Hs, Hm, app_nil_r. split; [reflexivity | exact Hk].
Qed.

Lemma whole_call_through_api_witness :
  map snapshot_response
    (snapshots (run demo_env [Resume; Resume; Resume; Resume; CancelClick; Resume]
                  (Created demo_args) (cancel_inference initial_world)))
  = let h := response_header "Shape of You" "Ed Sheeran"
               ("Stay by Zedd" +++ nl +++ "Perfect by Ed Sheeran" +++ nl
                +++ "Stay by Zedd" +++ nl +++ "Perfect by Ed Sheeran") in
    [h +++ "Great"; h +++ "Great"; h +++ "Great picks"].
Proof.
  exact (f_equal (map snapshot_response)
           (proj1 (whole_call_through_api demo_env demo_args
                     (cancel_inference initial_world) _ [CancelClick; Resume]
                     eq_refl eq_refl eq_refl))).
Defined.

(** X17. Turns without text leave no trace in the prompt: a turn whose two
    sides are both [None] or empty can be put anywhere into the history, or
    taken out of it, without changing the message list. *)
Theorem empty_turns_add_no_message sys h1 h2 u s t a recs :
  absent_or_empty u ->
  absent_or_empty s ->
  build_messages sys (h1 ++ (u, s) :: h2) t a recs
  = build_messages sys (h1 ++ h2) t a recs.
Proof.
  intros Hu Hs. apply absent_or_empty_falsy in Hu, Hs.
  unfold build_messages. rewrite !fold_append_turn, !flat_map_app.
  cbn [flat_map]. unfold turn_messages at 2. cbn [fst snd]. now rewrite Hu, Hs.
Qed.

Lemma empty_turns_add_no_message_witness :
  build_messages "sys" [(Some "hello", Some "hi"); (Some "", None); (None, Some "ok")]
    "Shape of You" "Ed Sheeran" "Stay by Zedd"
  = build_messages "sys" [(Some "hello", Some "hi"); (None, Some "ok")]
      "Shape of You" "Ed Sheeran" "Stay by Zedd".
Proof.
  exact (empty_turns_add_no_message "sys" [(Some "hello", Some "hi")]
           [(None, Some "ok")] (Some "") None "Shape of You" "Ed Sheeran"
           "Stay by Zedd" (or_intror eq_refl) (or_introl eq_refl)).
Defined.
